(** * go-lambda-csv: the CSV upload handler of [main.go]

    The handler reads a multipart request body, parses the part named
    [file] as CSV and starts one goroutine ([processRecord]) per CSV line.
    A buffered channel [sem] bounds the number of goroutines that run at
    once and a [sync.WaitGroup] joins them.

    The development has three layers:
    - [GoStrings] and [Boundary]: the string helpers behind
      [extractBoundary];
    - [Ingest]: the dispatch loop of [handleRequest] (lines 106-122) and
      the goroutines it starts, as an interleaving transition system whose
      scheduler choices are explicit actions;
    - [Handler]: [handleRequest] as a whole, on top of [Ingest]. *)

From Stdlib Require Import ZArith Lia Ascii String.
From stdpp Require Import base option list strings pretty gmap.

Open Scope string_scope.
Open Scope list_scope.
Open Scope nat_scope.

(** ** Data of [main.go] *)

(** One CSV line, as [csv.Reader.ReadAll] returns it: [[]string]. *)
Definition RawRecord := list string.

(** [type Record struct { ID string }] (main.go, line 29). [Record] is a
    keyword of Rocq, whence the name. *)
Record Record_ := { ID : string }.

(** [dynamodb.AttributeValue], as far as a string attribute needs it, and
    the attribute map that [dynamodbattribute.MarshalMap] returns. *)
Inductive AttributeValue :=
| AttrS (s : string)
| AttrNULL.

Abbreviation AttributeMap := (gmap string AttributeValue).

(** [dynamodb.PutItemInput], with the two fields the code fills in. *)
Record PutItemInput := { TableName : string; Item : AttributeMap }.

(** How the process can end before [handleRequest] returns: [os.Exit(1)]
    at line 57, or the panic of [wg.Done()] on a counter that is already
    zero. *)
Inductive exit_status :=
| OsExit (code : Z)
| PanicNegativeCounter.

(** Counters of the process-wide collaborators; they survive a run of the
    dispatch loop. *)
Record world := { w_uuid_calls : nat; w_put_calls : nat }.

Definition fresh_world : world := {| w_uuid_calls := 0; w_put_calls := 0 |}.

(** The collaborators of [main.go] that live outside the repository.
    - [tableName] is [os.Getenv("TABLE_NAME")], read once at start-up.
    - [uuid_New k] is the string of the [k]-th call of [uuid.New()] in the
      process; the source gives that call no error result.
    - [MarshalMap] is [dynamodbattribute.MarshalMap]: an attribute map or
      an error text.
    - [PutItem n input] is the error of the [n]-th call of [svc.PutItem],
      [None] when the write succeeds. The store may fail any call. *)
Class Collaborators := {
  tableName : string;
  uuid_New : nat → string;
  MarshalMap : Record_ → AttributeMap + string;
  PutItem : nat → PutItemInput → option string
}.

Module Ingest.

(** What an observer of the process sees, goroutine by goroutine. The
    index [i] of a goroutine is its rank in the order of the [go]
    statements. *)
Inductive event :=
| EvLogLine (line : RawRecord)                       (* line 112 *)
| EvWgAdd                                            (* line 114 *)
| EvSemSend                                          (* line 117 *)
| EvGo (i : nat)                                     (* line 118 *)
| EvLogRecord (i : nat) (r : RawRecord)              (* line 47 *)
| EvNewID (i k : nat) (id : string)                  (* line 49, call number k *)
| EvMarshalMsg (i : nat)                             (* line 55 *)
| EvMarshalErr (i : nat) (e : string)                (* line 56 *)
| EvExit (i : nat) (code : Z)                        (* line 57 *)
| EvPutItem (i : nat) (item : Record_) (input : PutItemInput)
            (err : option string)                    (* line 66 *)
| EvLogPutErr (i : nat) (e : string)                 (* line 68 *)
| EvSemRecv (i : nat)                                (* line 44 *)
| EvWgDone (i : nat)                                 (* line 42 *)
| EvPanic (i : nat)
| EvWaitReturn.                                      (* line 122 *)

(** Program counter of a [processRecord] goroutine. The two deferred calls
    run in the reverse order of their [defer] statements: first the receive
    from [sem], then [wg.Done()]. *)
Inductive tpc :=
| TLog                                      (* before line 47 *)
| TNewID                                    (* before line 49 *)
| TMarshal (id : string)                    (* before lines 50-54 *)
| TPrintMsg (e : string)                    (* before line 55 *)
| TPrintErr (e : string)                    (* before line 56 *)
| TOsExit                                   (* before line 57 *)
| TPut (item : Record_) (av : AttributeMap) (* before lines 61-70 *)
| TRelease                                  (* before the deferred <-sem *)
| TDone                                     (* before the deferred wg.Done() *)
| TExit.                                    (* the goroutine has returned *)

Record task := { t_record : RawRecord; t_pc : tpc }.

(** Program counter of the dispatch loop, lines 111-122. *)
Inductive dpc :=
| DRange                      (* at [for _, line := range lines] *)
| DAdd (line : RawRecord)     (* before wg.Add(1) *)
| DSend (line : RawRecord)    (* before sem <- struct{}{} *)
| DGo (line : RawRecord)      (* before go processRecord(line, sem, &wg) *)
| DWait                       (* before wg.Wait() *)
| DRet.                       (* wg.Wait() has returned *)

(** The channel [sem] carries values of type [struct{}], so its buffer is
    a count; [wg] is the counter of the WaitGroup. *)
Record state := {
  lines : list RawRecord;
  main : dpc;
  sem_cap : nat;
  sem_len : nat;
  wg : nat;
  tasks : list task;
  uuid_calls : nat;
  put_calls : nat;
  exited : option exit_status;
  trace : list event
}.

Definition set_main (d : dpc) (s : state) : state :=
  {| lines := lines s; main := d; sem_cap := sem_cap s; sem_len := sem_len s;
     wg := wg s; tasks := tasks s; uuid_calls := uuid_calls s;
     put_calls := put_calls s; exited := exited s; trace := trace s |}.

Definition set_lines (l : list RawRecord) (s : state) : state :=
  {| lines := l; main := main s; sem_cap := sem_cap s; sem_len := sem_len s;
     wg := wg s; tasks := tasks s; uuid_calls := uuid_calls s;
     put_calls := put_calls s; exited := exited s; trace := trace s |}.

Definition set_sem_len (n : nat) (s : state) : state :=
  {| lines := lines s; main := main s; sem_cap := sem_cap s; sem_len := n;
     wg := wg s; tasks := tasks s; uuid_calls := uuid_calls s;
     put_calls := put_calls s; exited := exited s; trace := trace s |}.

Definition set_wg (n : nat) (s : state) : state :=
  {| lines := lines s; main := main s; sem_cap := sem_cap s; sem_len := sem_len s;
     wg := n; tasks := tasks s; uuid_calls := uuid_calls s;
     put_calls := put_calls s; exited := exited s; trace := trace s |}.

Definition set_tasks (ts : list task) (s : state) : state :=
  {| lines := lines s; main := main s; sem_cap := sem_cap s; sem_len := sem_len s;
     wg := wg s; tasks := ts; uuid_calls := uuid_calls s;
     put_calls := put_calls s; exited := exited s; trace := trace s |}.

Definition set_uuid_calls (n : nat) (s : state) : state :=
  {| lines := lines s; main := main s; sem_cap := sem_cap s; sem_len := sem_len s;
     wg := wg s; tasks := tasks s; uuid_calls := n;
     put_calls := put_calls s; exited := exited s; trace := trace s |}.

Definition set_put_calls (n : nat) (s : state) : state :=
  {| lines := lines s; main := main s; sem_cap := sem_cap s; sem_len := sem_len s;
     wg := wg s; tasks := tasks s; uuid_calls := uuid_calls s;
     put_calls := n; exited := exited s; trace := trace s |}.

Definition set_exited (e : exit_status) (s : state) : state :=
  {| lines := lines s; main := main s; sem_cap := sem_cap s; sem_len := sem_len s;
     wg := wg s; tasks := tasks s; uuid_calls := uuid_calls s;
     put_calls := put_calls s; exited := Some e; trace := trace s |}.

Definition emit (e : event) (s : state) : state :=
  {| lines := lines s; main := main s; sem_cap := sem_cap s; sem_len := sem_len s;
     wg := wg s; tasks := tasks s; uuid_calls := uuid_calls s;
     put_calls := put_calls s; exited := exited s; trace := e :: trace s |}.

(** Goroutine [i] moves to program counter [pc]. *)
Definition set_pc (i : nat) (t : task) (pc : tpc) (s : state) : state :=
  set_tasks (<[i := {| t_record := t_record t; t_pc := pc |}]> (tasks s)) s.

(** [make(chan struct{}, C)] and a zero [sync.WaitGroup], lines 106-109,
    in front of the loop over [ls]. *)
Definition init (C : nat) (ls : list RawRecord) (w : world) : state :=
  {| lines := ls; main := DRange; sem_cap := C; sem_len := 0; wg := 0;
     tasks := []; uuid_calls := w_uuid_calls w; put_calls := w_put_calls w;
     exited := None; trace := [] |}.

Definition world_of (s : state) : world :=
  {| w_uuid_calls := uuid_calls s; w_put_calls := put_calls s |}.

(** A choice of the scheduler: the dispatch loop runs its next statement,
    goroutine [i] runs its next statement, or (on an unbuffered channel
    only) the send of the dispatch loop meets the receive of goroutine
    [i]. *)
Inductive action :=
| Main
| Task (i : nat)
| Handoff (i : nat).

(** The next statement of the dispatch loop. [None]: the loop is blocked
    (a send on a full channel, a [Wait] on a positive counter) or has
    returned. *)
Definition step_main (s : state) : option state :=
  match main s with
  | DRange =>
      match lines s with
      | [] => Some (set_main DWait s)
      | line :: rest =>
          Some (emit (EvLogLine line) (set_main (DAdd line) (set_lines rest s)))
      end
  | DAdd line => Some (emit EvWgAdd (set_main (DSend line) (set_wg (S (wg s)) s)))
  | DSend line =>
      if decide (sem_len s < sem_cap s)
      then Some (emit EvSemSend (set_main (DGo line) (set_sem_len (S (sem_len s)) s)))
      else None
  | DGo line =>
      Some (emit (EvGo (length (tasks s)))
              (set_main DRange
                 (set_tasks (tasks s ++ [{| t_record := line; t_pc := TLog |}]) s)))
  | DWait =>
      if decide (wg s = 0) then Some (emit EvWaitReturn (set_main DRet s)) else None
  | DRet => None
  end.

Section Step.
Context `{CO : Collaborators}.

(** The next statement of goroutine [i], [processRecord] lines 40-71. *)
Definition step_task (i : nat) (s : state) : option state :=
  match tasks s !! i with
  | None => None
  | Some t =>
      match t_pc t with
      | TLog => Some (emit (EvLogRecord i (t_record t)) (set_pc i t TNewID s))
      | TNewID =>
          let k := uuid_calls s in
          let id := uuid_New k in
          Some (emit (EvNewID i k id) (set_uuid_calls (S k) (set_pc i t (TMarshal id) s)))
      | TMarshal id =>
          let item := {| ID := id |} in
          match MarshalMap item with
          | inl av => Some (set_pc i t (TPut item av) s)
          | inr e => Some (set_pc i t (TPrintMsg e) s)
          end
      | TPrintMsg e => Some (emit (EvMarshalMsg i) (set_pc i t (TPrintErr e) s))
      | TPrintErr e => Some (emit (EvMarshalErr i e) (set_pc i t TOsExit s))
      | TOsExit => Some (emit (EvExit i 1) (set_exited (OsExit 1) s))
      | TPut item av =>
          let input := {| TableName := tableName; Item := av |} in
          let err := PutItem (put_calls s) input in
          let s1 := emit (EvPutItem i item input err)
                      (set_put_calls (S (put_calls s)) (set_pc i t TRelease s)) in
          match err with
          | None => Some s1
          | Some e => Some (emit (EvLogPutErr i e) s1)
          end
      | TRelease =>
          match sem_len s with
          | O => None
          | S n => Some (emit (EvSemRecv i) (set_sem_len n (set_pc i t TDone s)))
          end
      | TDone =>
          match wg s with
          | O => Some (emit (EvPanic i) (set_exited PanicNegativeCounter s))
          | S n => Some (emit (EvWgDone i) (set_wg n (set_pc i t TExit s)))
          end
      | TExit => None
      end
  end.

(** On a channel without buffer a send completes only together with a
    receive: the dispatch loop at line 117 and goroutine [i] at its
    deferred receive move at once. *)
Definition step_handoff (i : nat) (s : state) : option state :=
  match sem_cap s, main s, tasks s !! i with
  | O, DSend line, Some t =>
      match t_pc t with
      | TRelease =>
          Some (emit (EvSemRecv i) (emit EvSemSend (set_main (DGo line) (set_pc i t TDone s))))
      | _ => None
      end
  | _, _, _ => None
  end.

(** One step of the process. Nothing runs once the process has exited. *)
Definition step (s : state) (a : action) : option state :=
  match exited s with
  | Some _ => None
  | None =>
      match a with
      | Main => step_main s
      | Task i => step_task i s
      | Handoff i => step_handoff i s
      end
  end.

Fixpoint run (s : state) (acts : list action) : option state :=
  match acts with
  | [] => Some s
  | a :: rest =>
      match step s a with
      | Some s' => run s' rest
      | None => None
      end
  end.

Definition reachable (s0 s : state) : Prop := ∃ acts, run s0 acts = Some s.

(** No action is enabled. *)
Definition stuck (s : state) : Prop := ∀ a, step s a = None.

End Step.

(** *** Observations on a state *)

(** Sum of a measure of the program counters of the goroutines. *)
Definition tsum (f : tpc → nat) (ts : list task) : nat :=
  sum_list_with (λ t, f (t_pc t)) ts.

(** A goroutine holds its token of [sem] from its start until its
    deferred receive. *)
Definition holds_token (pc : tpc) : nat :=
  match pc with
  | TLog | TNewID | TMarshal _ | TPut _ _ | TRelease => 1
  | TPrintMsg _ | TPrintErr _ | TOsExit => 1
  | TDone | TExit => 0
  end.

(** A goroutine counts in [wg] until its deferred [wg.Done()]. *)
Definition not_done (pc : tpc) : nat :=
  match pc with TExit => 0 | _ => 1 end.

Definition terminal (pc : tpc) : nat :=
  match pc with TExit => 1 | _ => 0 end.

(** The write tasks between acquisition and release of a token. *)
Definition in_flight (s : state) : nat := tsum holds_token (tasks s).

(** The completion counter: the goroutines that have called [wg.Done()]. *)
Definition completed (s : state) : nat := tsum terminal (tasks s).

(** The token that the dispatch loop holds for the goroutine it is about
    to start, and the [wg.Add(1)] it has made for it. *)
Definition holding (d : dpc) : nat :=
  match d with DGo _ => 1 | _ => 0 end.

Definition pending (d : dpc) : nat :=
  match d with DSend _ | DGo _ => 1 | _ => 0 end.

Definition current (d : dpc) : nat :=
  match d with DAdd _ | DSend _ | DGo _ => 1 | _ => 0 end.

(** The loop over the lines is over. *)
Definition queue_done (d : dpc) : bool :=
  match d with DWait | DRet => true | _ => false end.

Fixpoint count_ev (p : event → bool) (tr : list event) : nat :=
  match tr with
  | [] => 0
  | e :: rest => (if p e then 1 else 0) + count_ev p rest
  end.

Definition is_put (i : nat) (e : event) : bool :=
  match e with EvPutItem j _ _ _ => bool_decide (i = j) | _ => false end.

Definition is_put_any (e : event) : bool :=
  match e with EvPutItem _ _ _ _ => true | _ => false end.


Definition is_recv (i : nat) (e : event) : bool :=
  match e with EvSemRecv j => bool_decide (i = j) | _ => false end.

Definition is_done (i : nat) (e : event) : bool :=
  match e with EvWgDone j => bool_decide (i = j) | _ => false end.

Definition is_done_any (e : event) : bool :=
  match e with EvWgDone _ => true | _ => false end.

(** Steps left to a goroutine, and to the dispatch loop on its current
    line; a line still in the queue costs four steps of the loop and the
    six of its goroutine. *)
Definition tweight (pc : tpc) : nat :=
  match pc with
  | TLog => 6 | TNewID => 5 | TMarshal _ => 4 | TPut _ _ => 3
  | TPrintMsg _ => 3 | TPrintErr _ => 2 | TOsExit => 1
  | TRelease => 2 | TDone => 1 | TExit => 0
  end.

Definition dweight (d : dpc) : nat :=
  match d with
  | DRange => 2 | DAdd _ => 11 | DSend _ => 10 | DGo _ => 9
  | DWait => 1 | DRet => 0
  end.

Definition measure (s : state) : nat :=
  10 * length (lines s) + dweight (main s) + tsum tweight (tasks s)
  + (if exited s is Some _ then 0 else 1).

(** The invariant of the dispatch loop on [N] lines with a channel of
    capacity [C]. *)
Record inv (C N : nat) (s : state) : Prop := {
  inv_cap : sem_cap s = C;
  inv_sem : sem_len s = tsum holds_token (tasks s) + holding (main s);
  inv_le : sem_len s ≤ sem_cap s;
  inv_wg : wg s = tsum not_done (tasks s) + pending (main s);
  inv_n : length (tasks s) + length (lines s) + current (main s) = N;
  inv_lines : queue_done (main s) = true → lines s = [];
  inv_ret : main s = DRet → tsum not_done (tasks s) = 0;
  inv_exit : exited s = None ∨ exited s = Some (OsExit 1)
}.

(** The measure [f] of goroutine [i], zero while it does not exist. *)
Definition tstage (f : tpc → nat) (ts : list task) (i : nat) : nat :=
  match ts !! i with Some t => f (t_pc t) | None => 0 end.

Definition after_put (pc : tpc) : nat :=
  match pc with TRelease | TDone | TExit => 1 | _ => 0 end.

Definition after_recv (pc : tpc) : nat :=
  match pc with TDone | TExit => 1 | _ => 0 end.

Definition is_send (e : event) : bool :=
  match e with EvSemSend => true | _ => false end.

Definition is_put_failure_of (i : nat) (e : event) : bool :=
  match e with EvPutItem j _ _ (Some _) => bool_decide (i = j) | _ => false end.

Definition is_log_put_err_of (i : nat) (e : event) : bool :=
  match e with EvLogPutErr j _ => bool_decide (i = j) | _ => false end.

Definition is_marshal_err (e : event) : bool :=
  match e with EvMarshalErr _ _ => true | _ => false end.

Definition is_marshal_err_of (i : nat) (e : event) : bool :=
  match e with EvMarshalErr j _ => bool_decide (i = j) | _ => false end.

(** A goroutine is in front of [os.Exit(1)], the error printed. *)
Definition after_err (pc : tpc) : nat :=
  match pc with TOsExit => 1 | _ => 0 end.

(** What the trace records of each goroutine agrees with where the
    goroutine stands. *)
Record inv_trace (s : state) : Prop := {
  tr_put : ∀ i, count_ev (is_put i) (trace s) = tstage after_put (tasks s) i;
  tr_recv : ∀ i, count_ev (is_recv i) (trace s) = tstage after_recv (tasks s) i;
  tr_done : ∀ i, count_ev (is_done i) (trace s) = tstage terminal (tasks s) i;
  tr_put_all : count_ev is_put_any (trace s) = tsum after_put (tasks s);
  tr_done_all : count_ev is_done_any (trace s) = tsum terminal (tasks s);
  tr_send : count_ev is_send (trace s) = length (tasks s) + holding (main s);
  tr_fail : ∀ i, count_ev (is_put_failure_of i) (trace s)
                 = count_ev (is_log_put_err_of i) (trace s);
  tr_err : ∀ i, count_ev (is_marshal_err_of i) (trace s)
                = tstage after_err (tasks s) i;
  tr_exit : exited s = None ∨ exited s = Some PanicNegativeCounter
            ∨ ∃ i t, tasks s !! i = Some t ∧ t_pc t = TOsExit
}.

Definition after_newid (pc : tpc) : nat :=
  match pc with TLog | TNewID => 0 | _ => 1 end.

(** The records handed to [svc.PutItem], latest first. *)
Fixpoint submitted (tr : list event) : list Record_ :=
  match tr with
  | [] => []
  | EvPutItem _ item _ _ :: rest => item :: submitted rest
  | _ :: rest => submitted rest
  end.

Section Ids.
Context `{CO : Collaborators}.

(** Goroutine [i] has drawn the identifier [id]. *)
Definition generated (tr : list event) (i : nat) (id : string) : Prop :=
  ∃ k, EvNewID i k id ∈ tr.

(** Where the identifiers in the trace come from, in a run that started
    when [uuid.New] had been called [c0] times. *)
Record inv_ids (c0 : nat) (s : state) : Prop := {
  ids_calls : c0 ≤ uuid_calls s;
  ids_new : ∀ i k id, EvNewID i k id ∈ trace s →
      id = uuid_New k ∧ c0 ≤ k < uuid_calls s ∧ tstage after_newid (tasks s) i = 1;
  ids_owner : ∀ i j k id id',
      EvNewID i k id ∈ trace s → EvNewID j k id' ∈ trace s → i = j;
  ids_marshal : ∀ i t id, tasks s !! i = Some t → t_pc t = TMarshal id →
      generated (trace s) i id;
  ids_put : ∀ i t item av, tasks s !! i = Some t → t_pc t = TPut item av →
      generated (trace s) i (ID item);
  ids_put_av : ∀ i t item av, tasks s !! i = Some t → t_pc t = TPut item av →
      MarshalMap item = inl av;
  ids_item : ∀ i item input err, EvPutItem i item input err ∈ trace s →
      generated (trace s) i (ID item);
  ids_item_av : ∀ i item input err, EvPutItem i item input err ∈ trace s →
      MarshalMap item = inl (Item input);
  ids_item_table : ∀ i item input err, EvPutItem i item input err ∈ trace s →
      TableName input = tableName;
  ids_logged : ∀ i item input e, EvPutItem i item input (Some e) ∈ trace s →
      EvLogPutErr i e ∈ trace s;
  ids_err : ∀ i e, EvMarshalErr i e ∈ trace s →
      tstage after_err (tasks s) i = 1
      ∧ ∃ id, MarshalMap {| ID := id |} = inr e;
  ids_fail : ∀ i t e, tasks s !! i = Some t →
      t_pc t = TPrintMsg e ∨ t_pc t = TPrintErr e →
      ∃ id, MarshalMap {| ID := id |} = inr e
}.



End Ids.

(** The inputs that [svc.PutItem] has received, latest first. *)
Fixpoint store_calls (tr : list event) : list PutItemInput :=
  match tr with
  | [] => []
  | EvPutItem _ _ input _ :: rest => input :: store_calls rest
  | _ :: rest => store_calls rest
  end.

(** *** The same run on other CSV lines

    [relabel f] replaces every CSV line [r] that a state holds by [f r]:
    in the queue, in the dispatch loop, in the goroutines and in the log. *)
Definition relabel_event (f : RawRecord → RawRecord) (e : event) : event :=
  match e with
  | EvLogLine line => EvLogLine (f line)
  | EvLogRecord i r => EvLogRecord i (f r)
  | _ => e
  end.

Definition relabel_task (f : RawRecord → RawRecord) (t : task) : task :=
  {| t_record := f (t_record t); t_pc := t_pc t |}.

Definition relabel_dpc (f : RawRecord → RawRecord) (d : dpc) : dpc :=
  match d with
  | DAdd line => DAdd (f line)
  | DSend line => DSend (f line)
  | DGo line => DGo (f line)
  | _ => d
  end.

Definition relabel (f : RawRecord → RawRecord) (s : state) : state :=
  {| lines := f <$> lines s; main := relabel_dpc f (main s);
     sem_cap := sem_cap s; sem_len := sem_len s; wg := wg s;
     tasks := relabel_task f <$> tasks s; uuid_calls := uuid_calls s;
     put_calls := put_calls s; exited := exited s;
     trace := relabel_event f <$> trace s |}.

(** The capacity that [handleRequest] gives the channel, line 109. *)
Definition semCapacity : nat := 500.

(** The dispatch loop as [handleRequest] starts it on the parsed [ls]. *)
Definition dispatch (ls : list RawRecord) (w : world) : state :=
  init semCapacity ls w.

End Ingest.

(** ** Strings of Go, as [extractBoundary] uses them

    A Go string is a sequence of bytes; so is a [string] of Rocq. *)
Module GoStrings.

(** [strings.Split(s, sep)] for a separator of one byte: the pieces
    between the occurrences of [sep], one more than there are
    occurrences. *)
Fixpoint Split (s : string) (sep : ascii) : list string :=
  match s with
  | EmptyString => [EmptyString]
  | String c s' =>
      if Ascii.eqb c sep then EmptyString :: Split s' sep
      else match Split s' sep with
           | piece :: pieces => String c piece :: pieces
           | [] => [String c EmptyString]
           end
  end.

(** [strings.HasPrefix]:
    [len(s) >= len(prefix) && s[:len(prefix)] == prefix]. *)
Definition HasPrefix (s prefix : string) : bool :=
  (String.length prefix <=? String.length s)
  && String.eqb (substring 0 (String.length prefix) s) prefix.

(** The slice expression [s[n:]]; [None] is the run-time panic for
    [n > len(s)]. *)
Definition slice_from (s : string) (n : nat) : option string :=
  if String.length s <? n then None
  else Some (substring n (String.length s - n) s).

(** The white space of ASCII, [asciiSpace] of package [strings]. *)
Definition asciiSpace (c : ascii) : bool :=
  match nat_of_ascii c with
  | 9 | 10 | 11 | 12 | 13 | 32 => true
  | _ => false
  end.

Fixpoint trim_left (s : string) : string :=
  match s with
  | String c s' => if asciiSpace c then trim_left s' else s
  | EmptyString => EmptyString
  end.

Fixpoint trim_right (s : string) : string :=
  match s with
  | EmptyString => EmptyString
  | String c s' =>
      match trim_right s' with
      | EmptyString => if asciiSpace c then EmptyString else String c EmptyString
      | rest => String c rest
      end
  end.

(** [strings.TrimSpace] on strings of ASCII bytes. On other strings the
    function of Go also removes the white space of Unicode; the facts on
    [extractBoundary] hold for whatever function trims, and this one
    serves the examples. *)
Definition TrimSpace_ascii (s : string) : string := trim_right (trim_left s).

End GoStrings.

Module Boundary.
Import GoStrings.

Definition boundaryPrefix : string := "boundary=".

Section ExtractBoundary.
(** [strings.TrimSpace] of the Go library. *)
Variable TrimSpace : string → string.

(** The loop of [extractBoundary], lines 134-139, over the pieces that are
    left; [None] is a panic of the slice expression at line 137. *)
Fixpoint extractBoundary_loop (params : list string) : option string :=
  match params with
  | [] => Some EmptyString
  | param :: rest =>
      let param := TrimSpace param in
      if HasPrefix param boundaryPrefix
      then slice_from param (String.length boundaryPrefix)
      else extractBoundary_loop rest
  end.

(** [extractBoundary], lines 132-141. *)
Definition extractBoundary (contentType : string) : option string :=
  extractBoundary_loop (Split contentType ";").

(** The claim in its own words: split on [;], trim every piece, take the
    first piece that starts with [boundary=] and return what follows the
    prefix; the empty string when there is no such piece. *)
Definition starts_with_prefix (piece : string) : Prop :=
  ∃ rest, piece = boundaryPrefix +:+ rest.

Definition first_prefixed (pieces : list string) (result : string) : Prop :=
  (∃ i, pieces !! i = Some (boundaryPrefix +:+ result)
        ∧ ∀ j piece, j < i → pieces !! j = Some piece → ¬ starts_with_prefix piece)
  ∨ (result = EmptyString ∧ ∀ piece, piece ∈ pieces → ¬ starts_with_prefix piece).

Definition boundary_of_first_piece (contentType : string) (result : string) : Prop :=
  first_prefixed (TrimSpace <$> Split contentType ";") result.

End ExtractBoundary.

End Boundary.

(** ** The handler *)
Module Handler.
Import Ingest Boundary.

(** [events.APIGatewayProxyRequest] and [events.APIGatewayProxyResponse],
    with the fields that [handleRequest] reads and writes. *)
Record APIGatewayProxyRequest := {
  HTTPMethod : string;
  Headers : gmap string string;
  Body : string
}.

Record APIGatewayProxyResponse := {
  StatusCode : Z;
  ResponseBody : string
}.

(** A part of the multipart body: [part.FormName()] and its content. *)
Record Part := { FormName : string; Content : string }.

(** The readers of the Go library.
    - [TrimSpace] is [strings.TrimSpace].
    - [NextParts body boundary] lists the results of the calls of
      [reader.NextPart()] on the body, a part or an error each, up to
      [io.EOF].
    - [csv_ReadAll] is [csvReader.ReadAll()] with [LazyQuotes] on the
      content of a part. *)
Class Readers := {
  TrimSpace : string → string;
  NextParts : string → string → list (Part + string);
  csv_ReadAll : string → list RawRecord + string
}.

(** How a call of [handleRequest] ends: with a response, or with the end
    of the process while the handler runs. *)
Inductive outcome :=
| Responded (r : APIGatewayProxyResponse) (w : world)
| ProcessExit (e : exit_status)
| Panicked.

(** Status codes of [net/http]. *)
Definition StatusOK : Z := 200.
Definition StatusBadRequest : Z := 400.
Definition StatusMethodNotAllowed : Z := 405.
Definition StatusInternalServerError : Z := 500.

Definition success : APIGatewayProxyResponse :=
  {| StatusCode := StatusOK; ResponseBody := "CSV data processed successfully" |}.

Section Handle.
Context `{CO : Collaborators} `{RD : Readers}.

(** The loop over the parts, lines 86-124. Each part named [file] runs the
    dispatch loop once, under the next schedule of [scheds]; the loop
    over the parts goes on when the dispatch loop has returned. [None]: a
    schedule is missing, asks for a step that is not enabled, or stops
    before the dispatch loop has returned or the process has exited. *)
Fixpoint parts_loop (w : world) (parts : list (Part + string))
    (scheds : list (list action)) : option outcome :=
  match parts with
  | [] => Some (Responded success w)
  | inr e :: _ =>
      Some (Responded {| StatusCode := StatusInternalServerError;
                         ResponseBody := "Error processing file" |} w)
  | inl part :: rest =>
      if decide (FormName part = "file") then
        match csv_ReadAll (Content part) with
        | inr e =>
            Some (Responded {| StatusCode := StatusBadRequest;
                               ResponseBody := "Error reading CSV: " +:+ e |} w)
        | inl ls =>
            match scheds with
            | [] => None
            | acts :: scheds' =>
                match run (dispatch ls w) acts with
                | None => None
                | Some s =>
                    match exited s, main s with
                    | Some e, _ => Some (ProcessExit e)
                    | None, DRet => parts_loop (world_of s) rest scheds'
                    | None, _ => None
                    end
                end
            end
        end
      else parts_loop w rest scheds
  end.

(** [handleRequest], lines 73-130. The log lines of the handler itself
    (lines 80, 92 and 102) are left out of the outcome. *)
Definition handleRequest (w : world) (request : APIGatewayProxyRequest)
    (scheds : list (list action)) : option outcome :=
  if decide (HTTPMethod request ≠ "POST") then
    Some (Responded {| StatusCode := StatusMethodNotAllowed;
                       ResponseBody := EmptyString |} w)
  else
    let body := Body request in
    let contentType := default EmptyString (Headers request !! "Content-Type") in
    match extractBoundary TrimSpace contentType with
    | None => Some Panicked
    | Some boundary => parts_loop w (NextParts body boundary) scheds
    end.

(** A result of [NextPart] that lets the loop over the parts go on: a
    part, and CSV that parses if the part is the one named [file]. *)
Definition reads_well (x : Part + string) : Prop :=
  match x with
  | inl part => FormName part = "file" → ∃ ls, csv_ReadAll (Content part) = inl ls
  | inr _ => False
  end.

End Handle.

End Handler.

(** ** Collaborators for the examples

    Identifiers [uuid-0], [uuid-1], ... in the order of the calls; a
    marshaller that refuses the identifiers of the calls in [bad_ids]; a
    store that fails the calls in [bad_puts]. The table name is the one of
    the deployment template. *)
Definition demo_uuid (k : nat) : string := "uuid-" +:+ pretty k.

Definition demo (bad_ids bad_puts : list nat) : Collaborators :=
  {| tableName := "table-name";
     uuid_New := demo_uuid;
     MarshalMap := λ r,
       if decide (ID r ∈ demo_uuid <$> bad_ids)
       then inr "unsupported type"
       else inl {[ "ID" := AttrS (ID r) ]};
     PutItem := λ n _,
       if decide (n ∈ bad_puts) then Some "RequestError: send request failed" else None |}.

Definition demo_lines : list RawRecord :=
  [["alice"; "30"]; ["bob"; "25"]; ["alice"; "30"]].

(** Schedules: the dispatch loop starts a goroutine in four steps, a
    goroutine runs to its end in six. *)
Definition spawn (n : nat) : list Ingest.action :=
  mjoin (replicate n (replicate 4 Ingest.Main)).

Definition finish (i : nat) : list Ingest.action := replicate 6 (Ingest.Task i).

(** Readers for the examples: two bodies under the boundary [xyz], one
    complete and one cut off after its part [file]. *)
Definition file_part : Handler.Part :=
  {| Handler.FormName := "file"; Handler.Content := "alice,30 / bob,25 / alice,30" |}.

Definition demo_readers : Handler.Readers :=
  {| Handler.TrimSpace := GoStrings.TrimSpace_ascii;
     Handler.NextParts := λ body boundary,
       if decide (boundary = "xyz") then
         if decide (body = "complete") then [inl file_part]
         else if decide (body = "truncated")
              then [inl file_part; inr "multipart: NextPart: EOF"]
              else [inr "multipart: NextPart: EOF"]
       else [inr "multipart: NextPart: EOF"];
     Handler.csv_ReadAll := λ content,
       if decide (content = Handler.Content file_part) then inl demo_lines
       else inr "record on line 1: wrong number of fields" |}.

Definition upload (body : string) : Handler.APIGatewayProxyRequest :=
  {| Handler.HTTPMethod := "POST";
     Handler.Headers := {[ "Content-Type" := "multipart/form-data; boundary=xyz" ]};
     Handler.Body := body |}.

Definition run_all : list Ingest.action :=
  spawn 3 ++ finish 0 ++ finish 1 ++ finish 2 ++ [Ingest.Main; Ingest.Main].

(** The same upload with the header key in small letters. *)
Definition small_key_upload : Handler.APIGatewayProxyRequest :=
  {| Handler.HTTPMethod := "POST";
     Handler.Headers := {[ "content-type" := "multipart/form-data; boundary=xyz" ]};
     Handler.Body := "complete" |}.

(** The state after a schedule (the start state if the schedule asks for a
    step that is not enabled). *)
Definition after `{CO : Collaborators} (s0 : Ingest.state) (acts : list Ingest.action)
  : Ingest.state :=
  default s0 (Ingest.run s0 acts).

(** Three goroutines started, the first one finished. *)
Definition two_in_flight : Ingest.state :=
  @after (demo [] []) (Ingest.dispatch demo_lines fresh_world) (spawn 3 ++ finish 0).





(** One line whose identifier the marshaller refuses. *)
Definition lone_abort : Ingest.state :=
  @after (demo [0] []) (Ingest.dispatch [["carol"; "41"]] fresh_world)
    (spawn 1 ++ finish 0).

(** The loop in front of its first send. *)
Definition at_send : Ingest.state :=
  @after (demo [] []) (Ingest.dispatch demo_lines fresh_world) [Ingest.Main; Ingest.Main].

(** Two lines; the marshaller refuses the first identifier. The first
    goroutine prints its error, the second one writes its line, and only
    then the first one calls [os.Exit]. *)
Definition late_put : Ingest.state :=
  @after (demo [0] []) (Ingest.dispatch [["dave"; "52"]; ["erin"; "38"]] fresh_world)
    (spawn 2 ++ replicate 5 (Ingest.Task 0) ++ replicate 4 (Ingest.Task 1)
     ++ [Ingest.Task 0]).

(** All three lines written and the loop returned; the store failed the
    second call. *)
Definition all_done : Ingest.state :=
  @after (demo [] [1]) (Ingest.dispatch demo_lines fresh_world)
    (spawn 3 ++ finish 0 ++ finish 1 ++ finish 2 ++ [Ingest.Main; Ingest.Main]).

Import Ingest.

(** ** Further observations on the dispatch loop and the handler *)
Module Observe.
Import Ingest GoStrings Boundary Handler.

(** The line that the dispatch loop has taken from the queue and not yet
    handed to a goroutine. *)
Definition current_line (d : dpc) : list RawRecord :=
  match d with
  | DAdd line | DSend line | DGo line => [line]
  | _ => []
  end.

(** The lines of the run in the order of the input: those of the
    goroutines started so far, the one in the hands of the loop, the
    queue. *)
Definition dispatched (s : state) : list RawRecord :=
  (t_record <$> tasks s) ++ current_line (main s) ++ lines s.

(** The lines in the log entries of line 112, latest first. *)
Fixpoint logged_lines (tr : list event) : list RawRecord :=
  match tr with
  | [] => []
  | EvLogLine line :: rest => line :: logged_lines rest
  | _ :: rest => logged_lines rest
  end.

Definition is_panic (e : event) : bool :=
  match e with EvPanic _ => true | _ => false end.


(** The byte [c] occurs in [s]. *)
Fixpoint contains_byte (c : ascii) (s : string) : bool :=
  match s with
  | EmptyString => false
  | String d s' => Ascii.eqb d c || contains_byte c s'
  end.

(** The responses of lines 93 and 103. *)
Definition read_error_response : APIGatewayProxyResponse :=
  {| StatusCode := StatusInternalServerError; ResponseBody := "Error processing file" |}.

Definition csv_error_response (e : string) : APIGatewayProxyResponse :=
  {| StatusCode := StatusBadRequest; ResponseBody := "Error reading CSV: " +:+ e |}.

Section Parts.
Context `{RD : Readers}.

(** A part at which the loop over the parts returns: a read error, or a
    part [file] whose CSV does not parse. *)
Definition stops (x : Part + string) : Prop :=
  match x with
  | inr _ => True
  | inl part =>
      FormName part = "file" ∧ ∃ e, csv_ReadAll (Content part) = inr e
  end.

(** The parts without those that are read and not named [file]. *)
Fixpoint drop_other_parts (parts : list (Part + string)) : list (Part + string) :=
  match parts with
  | [] => []
  | inl part :: rest =>
      if decide (FormName part = "file") then inl part :: drop_other_parts rest
      else drop_other_parts rest
  | inr e :: rest => inr e :: drop_other_parts rest
  end.

(** The CSV lines of the parts [file] in front of the first part at which
    the loop over the parts returns. *)
Fixpoint ingested (parts : list (Part + string)) : nat :=
  match parts with
  | [] => 0
  | inr _ :: _ => 0
  | inl part :: rest =>
      if decide (FormName part = "file") then
        match csv_ReadAll (Content part) with
        | inr _ => 0
        | inl ls => length ls + ingested rest
        end
      else ingested rest
  end.

(** The CSV lines that a request brings to the dispatch loop. *)
Definition handled_lines (request : APIGatewayProxyRequest) : nat :=
  if decide (HTTPMethod request ≠ "POST") then 0
  else
    match extractBoundary TrimSpace
            (default EmptyString (Headers request !! "Content-Type")) with
    | None => 0
    | Some boundary => ingested (NextParts (Body request) boundary)
    end.

End Parts.

End Observe.

(** * Facts on [extractBoundary] *)

Section BoundaryFacts.
Import GoStrings Boundary.

Lemma app_String c s1 s2 : String c s1 +:+ s2 = String c (s1 +:+ s2).
Proof. reflexivity. Qed.

Lemma app_empty s : EmptyString +:+ s = s.
Proof. reflexivity. Qed.

Lemma substring_full s : substring 0 (String.length s) s = s.
Proof. induction s as [|c s IH]; simpl; [done | by rewrite IH]. Qed.

Lemma substring_split n s :
  n ≤ String.length s →
  substring 0 n s +:+ substring n (String.length s - n) s = s.
Proof.
  revert s. induction n as [|n IH]; intros s Hn.
  - rewrite Nat.sub_0_r, substring_full. by destruct s.
  - destruct s as [|c s]; simpl in *; [lia|]. rewrite app_String, IH by lia. done.
Qed.

Lemma substring_prefix_app p rest :
  substring 0 (String.length p) (p +:+ rest) = p.
Proof.
  induction p as [|c p IH].
  - rewrite app_empty. by destruct rest.
  - rewrite app_String. simpl. by rewrite IH.
Qed.

Lemma length_app_string p rest :
  String.length (p +:+ rest) = String.length p + String.length rest.
Proof.
  induction p as [|c p IH]; [done|]. rewrite app_String. simpl. by rewrite IH.
Qed.

Lemma HasPrefix_spec s prefix :
  HasPrefix s prefix = true ↔ ∃ rest, s = prefix +:+ rest.
Proof.
  unfold HasPrefix. rewrite andb_true_iff, Nat.leb_le, String.eqb_eq. split.
  - intros [Hlen Hsub]. exists (substring (String.length prefix)
                                (String.length s - String.length prefix) s).
    rewrite <- Hsub at 1. by rewrite substring_split.
  - intros [rest ->]. rewrite length_app_string, substring_prefix_app. split; [lia | done].
Qed.

Lemma slice_from_app p rest :
  slice_from (p +:+ rest) (String.length p) = Some rest.
Proof.
  unfold slice_from. rewrite length_app_string.
  destruct (Nat.ltb_spec (String.length p + String.length rest) (String.length p)); [lia|].
  f_equal. pose proof (substring_split (String.length p) (p +:+ rest)) as Hs.
  rewrite length_app_string, substring_prefix_app in Hs.
  specialize (Hs ltac:(lia)). by apply (inj (String.app p)) in Hs.
Qed.

Lemma Split_nonempty s sep : Split s sep ≠ [].
Proof.
  destruct s as [|c s]; simpl; [done|].
  destruct (Ascii.eqb c sep); [done|]. by destruct (Split s sep).
Qed.

(** [Split] loses nothing: the pieces joined by the separator are the
    string, and no piece holds the separator. *)
Lemma Split_concat s sep :
  String.concat (String sep EmptyString) (Split s sep) = s.
Proof.
  induction s as [|c s IH]; simpl; [done|].
  pose proof (Split_nonempty s sep) as Hne.
  destruct (Ascii.eqb_spec c sep) as [->|Hc].
  - destruct (Split s sep) as [|p ps] eqn:E; [done|]. simpl in *. by rewrite IH.
  - destruct (Split s sep) as [|p ps] eqn:E; [done|].
    destruct ps; simpl in *; by rewrite <- IH.
Qed.

Import Observe.

Lemma contains_byte_app c s1 s2 :
  contains_byte c (s1 +:+ s2) = contains_byte c s1 || contains_byte c s2.
Proof.
  induction s1 as [|d s1 IH]; [done|]. rewrite app_String. simpl.
  by rewrite IH, orb_assoc.
Qed.

(** No piece of [Split] holds the separator. *)
Lemma Split_pieces s sep piece :
  piece ∈ Split s sep → contains_byte sep piece = false.
Proof.
  revert piece. induction s as [|c s IH]; intros piece Hin; simpl in Hin.
  - apply list_elem_of_singleton in Hin as ->. done.
  - destruct (Ascii.eqb c sep) eqn:Hc.
    + apply elem_of_cons in Hin as [->|Hin]; [done | by apply IH].
    + destruct (Split s sep) as [|p ps] eqn:E.
      * apply list_elem_of_singleton in Hin as ->. simpl. by rewrite Hc.
      * apply elem_of_cons in Hin as [->|Hin].
        -- simpl. rewrite Hc. simpl. apply IH, elem_of_cons. by left.
        -- apply IH, elem_of_cons. by right.
Qed.

Lemma Split_single s sep : contains_byte sep s = false → Split s sep = [s].
Proof.
  induction s as [|c s IH]; simpl; [done|]. intros Hc.
  apply orb_false_iff in Hc as [Hc Hs]. rewrite Hc, (IH Hs). done.
Qed.

Lemma Split_app_sep s1 s2 sep :
  contains_byte sep s1 = false →
  Split (s1 +:+ String sep s2) sep = s1 :: Split s2 sep.
Proof.
  induction s1 as [|c s1 IH]; intros Hc.
  - rewrite app_empty. simpl. by rewrite Ascii.eqb_refl.
  - simpl in Hc. apply orb_false_iff in Hc as [Hc Hs].
    rewrite app_String. simpl. rewrite Hc, (IH Hs). done.
Qed.

Section Loop.
Variable TrimSpace : string → string.

Lemma first_prefixed_unique pieces r r' :
  first_prefixed pieces r → first_prefixed pieces r' → r = r'.
Proof.
  intros [(i & Hi & Hbefore)|[-> Hnone]] [(i' & Hi' & Hbefore')|[-> Hnone']].
  - destruct (Nat.lt_trichotomy i i') as [Hlt|[->|Hlt]].
    + exfalso. eapply Hbefore'; [exact Hlt | exact Hi | by eexists].
    + assert (boundaryPrefix +:+ r = boundaryPrefix +:+ r') as Heq by congruence.
      by apply (inj (String.app boundaryPrefix)) in Heq.
    + exfalso. eapply Hbefore; [exact Hlt | exact Hi' | by eexists].
  - exfalso. eapply Hnone'; [by eapply list_elem_of_lookup_2 | by eexists].
  - exfalso. eapply Hnone; [by eapply list_elem_of_lookup_2 | by eexists].
  - done.
Qed.

Lemma extractBoundary_loop_spec params :
  ∃ result, extractBoundary_loop TrimSpace params = Some result
            ∧ first_prefixed (TrimSpace <$> params) result.
Proof.
  induction params as [|param rest (result & Hloop & Hspec)]; simpl.
  - exists EmptyString. split; [done|]. right. split; [done|].
    intros piece Hin. by apply not_elem_of_nil in Hin.
  - destruct (HasPrefix (TrimSpace param) boundaryPrefix) eqn:Hp.
    + apply HasPrefix_spec in Hp as [suffix Hsuffix]. exists suffix.
      rewrite Hsuffix. split; [apply slice_from_app|].
      left. exists 0. split; [done | intros; lia].
    + assert (Hnot : ¬ starts_with_prefix (TrimSpace param)).
      { intros Hs. apply HasPrefix_spec in Hs. congruence. }
      exists result. split; [done|].
      destruct Hspec as [(i & Hi & Hbefore)|[-> Hnone]].
      * left. exists (S i). split; [done|].
        intros [|j] piece Hj Hpiece; simplify_eq/=; [done|].
        eapply Hbefore; [|done]. lia.
      * right. split; [done|]. intros piece Hin.
        apply elem_of_cons in Hin as [->|Hin]; [done | by apply Hnone].
Qed.

(** C10. [extractBoundary] never panics, and its result is what the claim
    says: with the header split on [;] and every piece trimmed, it is what
    follows [boundary=] in the first piece that starts with this prefix,
    and the empty string when no piece does. Pieces that do not start
    with the prefix are passed over, whatever they hold. No other string
    fits this description. *)
Theorem extractBoundary_first_prefixed_piece contentType :
  ∃ result,
    extractBoundary TrimSpace contentType = Some result
    ∧ boundary_of_first_piece TrimSpace contentType result
    ∧ ∀ result', boundary_of_first_piece TrimSpace contentType result' →
                 result' = result.
Proof.
  destruct (extractBoundary_loop_spec (Split contentType ";")) as (result & Hloop & Hspec).
  exists result. split; [done|]. split; [done|].
  intros result' Hspec'. by eapply first_prefixed_unique.
Qed.

(** X13. A boundary written into a header comes back. For a media type
    and a boundary without [;], where the media type does not itself
    start with [boundary=] and trimming the piece [ boundary=b] only
    removes the blank in front, [extractBoundary] of
    [mediaType; boundary=b] is [b]. *)
Theorem extractBoundary_round_trip mediaType b :
  contains_byte ";" mediaType = false →
  contains_byte ";" b = false →
  ¬ starts_with_prefix (TrimSpace mediaType) →
  TrimSpace (" boundary=" +:+ b) = boundaryPrefix +:+ b →
  extractBoundary TrimSpace (mediaType +:+ "; boundary=" +:+ b) = Some b.
Proof.
  intros Hm Hb Hnot Htrim. unfold extractBoundary.
  change ("; boundary=" +:+ b) with (String ";" (" boundary=" +:+ b)).
  rewrite (Split_app_sep _ _ _ Hm).
  rewrite Split_single by (by rewrite contains_byte_app, Hb).
  simpl. destruct (HasPrefix (TrimSpace mediaType) boundaryPrefix) eqn:Hp.
  { exfalso. apply Hnot. by apply HasPrefix_spec. }
  rewrite Htrim.
  assert (Hp' : HasPrefix (boundaryPrefix +:+ b) boundaryPrefix = true)
    by (apply HasPrefix_spec; by eexists).
  rewrite Hp'. apply slice_from_app.
Qed.

Lemma extractBoundary_loop_no_byte c params result :
  (∀ s, contains_byte c s = false → contains_byte c (TrimSpace s) = false) →
  (∀ piece, piece ∈ params → contains_byte c piece = false) →
  extractBoundary_loop TrimSpace params = Some result →
  contains_byte c result = false.
Proof.
  intros Htrim. induction params as [|param rest IH]; intros Hpieces Hloop; simpl in Hloop.
  - by simplify_eq.
  - destruct (HasPrefix (TrimSpace param) boundaryPrefix) eqn:Hp.
    + apply HasPrefix_spec in Hp as [suffix Hsuffix].
      rewrite Hsuffix, slice_from_app in Hloop. simplify_eq.
      assert (Hc : contains_byte c (TrimSpace param) = false).
      { apply Htrim, Hpieces, elem_of_cons. by left. }
      rewrite Hsuffix, contains_byte_app in Hc. by apply orb_false_iff in Hc as [_ ?].
    + apply IH; [|done]. intros piece Hin. apply Hpieces, elem_of_cons. by right.
Qed.

(** X14. The boundary never holds a [;]: the header is cut at every
    semicolon before a piece is looked at, so a boundary that is written
    with one, quoted or not, comes out cut short. This needs of the
    trimming only that it adds no [;]. *)
Theorem extractBoundary_has_no_semicolon contentType result :
  (∀ s, contains_byte ";" s = false → contains_byte ";" (TrimSpace s) = false) →
  extractBoundary TrimSpace contentType = Some result →
  contains_byte ";" result = false.
Proof.
  intros Htrim Hres. eapply extractBoundary_loop_no_byte; [exact Htrim| |exact Hres].
  intros piece Hin. by eapply Split_pieces.
Qed.

End Loop.

Example extractBoundary_form_data :
  extractBoundary TrimSpace_ascii "multipart/form-data; boundary=----WebKitFormBoundary7MA4"
  = Some "----WebKitFormBoundary7MA4".
Proof. reflexivity. Qed.

Example extractBoundary_inner_occurrence_ignored :
  extractBoundary TrimSpace_ascii "multipart/form-data; x-boundary=abc ;	boundary=xyz; boundary=uvw"
  = Some "xyz".
Proof. reflexivity. Qed.

Example extractBoundary_none :
  extractBoundary TrimSpace_ascii "text/csv; charset=utf-8" = Some "".
Proof. reflexivity. Qed.

End BoundaryFacts.

(** * Facts on the dispatch loop *)

Section IngestFacts.
Context `{CO : Collaborators}.

Lemma tsum_app f l t : tsum f (l ++ [t]) = tsum f l + f (t_pc t).
Proof. unfold tsum. rewrite sum_list_with_app. simpl. lia. Qed.

Lemma tsum_insert f (l : list task) i t t' :
  l !! i = Some t → tsum f (<[i:=t']> l) + f (t_pc t) = tsum f l + f (t_pc t').
Proof.
  unfold tsum. revert i. induction l as [|x l IH]; intros [|i] Hl; simplify_eq/=.
  - lia.
  - specialize (IH _ Hl). lia.
Qed.

Lemma tsum_lookup_le f (l : list task) i t :
  l !! i = Some t → f (t_pc t) ≤ tsum f l.
Proof.
  unfold tsum. revert i. induction l as [|x l IH]; intros [|i] Hl; simplify_eq/=.
  - lia.
  - specialize (IH _ Hl). lia.
Qed.

Lemma tsum_zero_all f (l : list task) :
  tsum f l = 0 → ∀ i t, l !! i = Some t → f (t_pc t) = 0.
Proof. intros Hz i t Hl. pose proof (tsum_lookup_le f l i t Hl). lia. Qed.

Lemma tsum_pos_exists f (l : list task) :
  0 < tsum f l → ∃ i t, l !! i = Some t ∧ 0 < f (t_pc t).
Proof.
  unfold tsum. induction l as [|x l IH]; simpl; [lia|]. intros Hp.
  destruct (decide (0 < f (t_pc x))) as [Hx|Hx].
  - exists 0, x. done.
  - destruct IH as (i & t & Hl & Ht); [lia|]. exists (S i), t. done.
Qed.

(** Case analysis on a step: one goal per statement of the program. *)
Ltac step_cases Hstep :=
  unfold step, step_main, step_task, step_handoff in Hstep; simpl in Hstep;
  repeat (case_match; simplify_eq/=); simplify_eq/=.

(** Rewrites the sums over an updated goroutine list in terms of the sums
    before the update. *)
Ltac tsum_facts :=
  rewrite ?tsum_app; simpl;
  repeat match goal with
  | Hl : ?l !! ?i = Some ?t |- _ =>
      lazymatch goal with
      | _ : not_done (t_pc t) ≤ tsum not_done l |- _ => fail
      | _ =>
          pose proof (tsum_lookup_le not_done l i t Hl);
          pose proof (tsum_lookup_le holds_token l i t Hl)
      end
  end;
  repeat match goal with
  | Hl : ?l !! ?i = Some ?t |- context [tsum ?f (<[?i:=?t']> ?l)] =>
      let E := fresh "E" in
      pose proof (tsum_insert f l i t t' Hl) as E; simpl in E;
      generalize dependent (tsum f (<[i:=t']> l)); intros
  end;
  repeat match goal with
  | Hl : ?l !! ?i = Some ?t, Hpc : t_pc ?t = _ |- _ =>
      rewrite Hpc in *; clear Hpc
  end.

Lemma inv_init C ls w : inv C (length ls) (init C ls w).
Proof. split; simpl; try done; try lia; by left. Qed.

Lemma inv_step C N s a s' : inv C N s → step s a = Some s' → inv C N s'.
Proof.
  intros [Hc Hs Hle Hw Hn Hl Hr Hp] Hstep. destruct s; simpl in *.
  step_cases Hstep; split; simpl in *; rewrite ?length_app, ?length_insert; simpl;
    try done; try (by right); tsum_facts; simpl in *; try lia; try (exfalso; lia);
    try (intros; specialize (Hr ltac:(assumption)); lia).
Qed.

Lemma tstage_lookup f (l : list task) i t :
  l !! i = Some t → tstage f l i = f (t_pc t).
Proof. unfold tstage. by intros ->. Qed.

Lemma tstage_insert_eq f (l : list task) i t t' :
  l !! i = Some t → tstage f (<[i:=t']> l) i = f (t_pc t').
Proof.
  intros Hl. unfold tstage. rewrite list_lookup_insert_eq; [done|].
  by eapply lookup_lt_Some.
Qed.

Lemma tstage_insert_ne f (l : list task) i j t' :
  i ≠ j → tstage f (<[j:=t']> l) i = tstage f l i.
Proof. intros Hne. unfold tstage. by rewrite list_lookup_insert_ne. Qed.

Lemma tstage_app f (l : list task) t i :
  f (t_pc t) = 0 → tstage f (l ++ [t]) i = tstage f l i.
Proof.
  intros Hz. unfold tstage. destruct (decide (i < length l)) as [Hlt|Hge].
  - by rewrite lookup_app_l.
  - rewrite lookup_app_r by lia. rewrite (lookup_ge_None_2 l i) by lia.
    by destruct (i - length l) as [|n].
Qed.

Lemma inv_trace_init C ls w : inv_trace (init C ls w).
Proof. split; try done. by left. Qed.

(** Goals on the stage of goroutine [i0] after goroutine [i] has moved. *)
Ltac tstage_facts i0 i :=
  destruct (decide (i0 = i)) as [->|?];
  [ rewrite ?bool_decide_eq_true_2 by done;
    erewrite ?tstage_insert_eq by eassumption
  | rewrite ?bool_decide_eq_false_2 by done;
    rewrite ?tstage_insert_ne by done ];
  simpl.

Lemma inv_trace_step s a s' : inv_trace s → step s a = Some s' → inv_trace s'.
Proof.
  intros [Hput Hrecv Hdone Hpa Hda Hsend Hfail Herr Hexit] Hstep. destruct s; simpl in *.
  step_cases Hstep; split; simpl in *;
    rewrite ?length_app, ?length_insert; simpl; try done;
    try (by left); try (right; by left); try (right; right; by eauto);
    try (rewrite ?tsum_app; simpl; lia);
    try (intros i0; rewrite tstage_app by done; done);
    try (tsum_facts; simpl in *; lia);
    try (intros i0;
         match goal with Hl : _ !! ?i = Some _ |- _ =>
           specialize (Hput i0); specialize (Hrecv i0); specialize (Hdone i0);
           specialize (Hfail i0); specialize (Herr i0);
           pose proof (tstage_lookup after_put _ _ _ Hl);
           pose proof (tstage_lookup after_recv _ _ _ Hl);
           pose proof (tstage_lookup terminal _ _ _ Hl);
           pose proof (tstage_lookup after_err _ _ _ Hl);
           tstage_facts i0 i
         end;
         repeat match goal with Hpc : t_pc _ = _ |- _ => rewrite Hpc in *; clear Hpc end;
         simpl in *; lia).
Qed.

Lemma generated_cons e tr i id : generated tr i id → generated (e :: tr) i id.
Proof. intros [k Hk]. exists k. apply elem_of_cons; by right. Qed.

Lemma generated_here tr i k id : generated (EvNewID i k id :: tr) i id.
Proof. exists k. apply elem_of_cons; by left. Qed.

Lemma inv_ids_init C ls w : inv_ids (w_uuid_calls w) (init C ls w).
Proof.
  split; simpl; try done; try (intros; exfalso; by eapply not_elem_of_nil).
  all: intros i t *; by rewrite lookup_nil.
Qed.

Lemma inv_ids_step c0 s a s' : inv_ids c0 s → step s a = Some s' → inv_ids c0 s'.
Proof.
  intros [Hc Hnew Hown Hm Hp Hpa Hitem Hia Hit Hlog Herr Hfm] Hstep.
  destruct s; simpl in *.
  step_cases Hstep; split; simpl in *; try done; try lia; intros.
  all: repeat match goal with
       | Hin : _ ∈ _ :: _ |- _ => apply elem_of_cons in Hin as [Hin|Hin]; simplify_eq
       end.
  all: repeat match goal with
       | Hl : <[?i:=_]> _ !! ?i0 = Some _ |- _ =>
           destruct (decide (i0 = i)) as [->|?];
           [ rewrite list_lookup_insert_eq in Hl by (by eapply lookup_lt_Some)
           | rewrite list_lookup_insert_ne in Hl by done ]; simplify_eq/=
       | Hl : (_ ++ [_]) !! _ = Some _ |- _ =>
           apply lookup_snoc_Some in Hl as [[? Hl]|[? Hl]]; simplify_eq/=
       end.
  all: try done.
  all: try apply generated_here.
  all: try (repeat apply generated_cons; eauto; fail).
  all: repeat match goal with
       | Hin : EvNewID ?i ?k ?id ∈ _ |- _ =>
           lazymatch goal with
           | _ : _ ≤ k < _ |- _ => fail
           | _ => pose proof (Hnew _ _ _ Hin) as (? & ? & ?)
           end
       end.
  all: repeat match goal with
       | Hin : EvMarshalErr ?i ?e ∈ _ |- _ =>
           lazymatch goal with
           | _ : tstage after_err _ i = 1 |- _ => fail
           | _ => pose proof (Herr _ _ Hin) as (? & ?)
           end
       end.
  all: rewrite ?tstage_app by done.
  all: try match goal with
       | Hl : ?l !! ?i = Some ?t, Hpc : t_pc ?t = _ |- _ =>
           let Hs := fresh "Hs" in
           pose proof (tstage_lookup after_newid l i t Hl) as Hs;
           rewrite Hpc in Hs; simpl in Hs;
           let Hs' := fresh "Hs" in
           pose proof (tstage_lookup after_err l i t Hl) as Hs';
           rewrite Hpc in Hs'; simpl in Hs'
       end.
  all: try match goal with
       | Hl : _ !! ?i = Some _ |- context [tstage _ (<[?i:=_]> _) ?i] =>
           erewrite tstage_insert_eq by eassumption; simpl
       | Hl : _ !! ?i = Some _ |- context [tstage _ (<[?i:=_]> _) ?i0] =>
           destruct (decide (i0 = i)) as [->|?];
           [ erewrite tstage_insert_eq by eassumption
           | rewrite tstage_insert_ne by done ]; simpl
       end.
  all: try (exfalso; lia).
  all: try (split; [|split]; first [done | lia]).
  all: try (repeat (apply elem_of_cons; right); eauto; fail).
  all: try (apply elem_of_cons; left; done).
  all: try (split; [first [done | lia] | by eauto]).
  all: try (eapply Hfm; eauto; fail).
  all: try (match goal with Hor : _ ∨ _ |- _ => destruct Hor; simplify_eq end;
            first [by eauto | eapply Hfm; eauto]; fail).
  all: eauto.
Qed.

Lemma run_app s acts1 acts2 :
  run s (acts1 ++ acts2) = run s acts1 ≫= λ s', run s' acts2.
Proof.
  revert s. induction acts1 as [|a acts1 IH]; intros s; simpl; [done|].
  destruct (step s a); simpl; [apply IH | done].
Qed.

Lemma reachable_refl s : reachable s s.
Proof. by exists []. Qed.

Lemma reachable_step s0 s a s' :
  reachable s0 s → step s a = Some s' → reachable s0 s'.
Proof.
  intros [acts Hr] Hs. exists (acts ++ [a]). rewrite run_app, Hr. simpl. by rewrite Hs.
Qed.

(** Induction on the runs that start in [s0]. *)
Lemma reachable_ind_from s0 (P : state → Prop) :
  P s0 → (∀ s a s', reachable s0 s → P s → step s a = Some s' → P s') →
  ∀ s, reachable s0 s → P s.
Proof.
  intros H0 Hstep s [acts Hr]. revert s Hr.
  induction acts as [|a acts IH] using rev_ind; intros s Hr.
  - simpl in Hr. by simplify_eq.
  - rewrite run_app in Hr. destruct (run s0 acts) as [s1|] eqn:E1; simplify_eq/=.
    destruct (step s1 a) as [s2|] eqn:E2; simplify_eq/=.
    eapply Hstep; [by exists acts | by apply IH | done].
Qed.

Lemma inv_reachable C ls w s :
  reachable (init C ls w) s → inv C (length ls) s.
Proof.
  revert s. apply reachable_ind_from.
  - apply inv_init.
  - intros s a s' _ IH Hs. by eapply inv_step.
Qed.

Lemma inv_trace_reachable C ls w s :
  reachable (init C ls w) s → inv_trace s.
Proof.
  revert s. apply reachable_ind_from.
  - apply inv_trace_init.
  - intros s a s' _ IH Hs. by eapply inv_trace_step.
Qed.

Lemma inv_ids_reachable C ls w s :
  reachable (init C ls w) s → inv_ids (w_uuid_calls w) s.
Proof.
  revert s. apply reachable_ind_from.
  - apply inv_ids_init.
  - intros s a s' _ IH Hs. by eapply inv_ids_step.
Qed.

(** Every step uses up some of the work that is left. *)
Lemma measure_step s a s' : step s a = Some s' → measure s' < measure s.
Proof.
  intros Hstep. unfold measure. destruct s; simpl in *.
  step_cases Hstep; tsum_facts; simpl in *; lia.
Qed.

Lemma run_length s acts s' :
  run s acts = Some s' → length acts + measure s' ≤ measure s.
Proof.
  revert s. induction acts as [|a acts IH]; intros s Hr; simplify_eq/=; [lia|].
  destruct (step s a) as [s1|] eqn:E; [|done].
  apply measure_step in E. apply IH in Hr. lia.
Qed.

Lemma measure_init C ls w : measure (init C ls w) = 10 * length ls + 3.
Proof. unfold measure. simpl. lia. Qed.

(** A goroutine that has not returned can take its next step. *)
Lemma task_enabled C N s i t :
  inv C N s → exited s = None → tasks s !! i = Some t → t_pc t ≠ TExit →
  is_Some (step s (Task i)).
Proof.
  intros [Hc Hs Hle Hw Hn Hl Hr Hp] He Hi Hpc.
  pose proof (tsum_lookup_le holds_token _ _ _ Hi) as Hh.
  unfold step, step_task. rewrite He, Hi.
  destruct (t_pc t) eqn:E; simpl in *; try done; try by eexists.
  - destruct (MarshalMap _); by eexists.
  - destruct (PutItem _ _); by eexists.
  - destruct (sem_len s); [lia | by eexists].
  - destruct (wg s); by eexists.
Qed.

(** With a channel of positive capacity the process is never blocked: a
    state that is neither exited nor returned has an enabled action. *)
Lemma progress C N s :
  0 < C → inv C N s →
  is_Some (exited s) ∨ main s = DRet ∨ ∃ a s', step s a = Some s'.
Proof.
  intros HC Hinv. destruct (exited s) as [e|] eqn:He; [left; by eexists|].
  right. pose proof Hinv as [Hc Hs Hle Hw Hn Hl Hr Hp].
  assert (Hmain : ∀ s', step_main s = Some s' → ∃ a s', step s a = Some s').
  { intros s' E. exists Main, s'. unfold step. by rewrite He. }
  assert (Htask : ∀ f, (∀ pc, 0 < f pc → pc ≠ TExit) → 0 < tsum f (tasks s) →
                       ∃ a s', step s a = Some s').
  { intros f Hf Hpos. apply tsum_pos_exists in Hpos as (i & t & Hi & Ht).
    destruct (task_enabled C N s i t Hinv He Hi (Hf _ Ht)) as [s' E]. by exists (Task i), s'. }
  unfold step_main in Hmain. destruct (main s) eqn:Em; simpl in *.
  - right. destruct (lines s); by eapply Hmain.
  - right. by eapply Hmain.
  - right. destruct (decide (sem_len s < sem_cap s)); [by eapply Hmain|].
    apply (Htask holds_token); [intros [] ?; simpl in *; (done || lia) | lia].
  - right. by eapply Hmain.
  - right. destruct (decide (wg s = 0)); [by eapply Hmain|].
    apply (Htask not_done); [intros [] ?; simpl in *; (done || lia) | lia].
  - by left.
Qed.

Lemma tsum_partition (l : list task) :
  tsum terminal l + tsum not_done l = length l.
Proof.
  unfold tsum. induction l as [|t l IH]; simpl; [done|].
  destruct (t_pc t); simpl; lia.
Qed.

Lemma tsum_le_length f (l : list task) :
  (∀ pc, f pc ≤ 1) → tsum f l ≤ length l.
Proof.
  intros Hf. unfold tsum. induction l as [|t l IH]; simpl; [done|].
  specialize (Hf (t_pc t)). lia.
Qed.

(** From every state of the invariant the process can run to its end: it
    exits, or the dispatch loop returns. *)
Lemma terminates C N s :
  0 < C → inv C N s →
  ∃ acts s', run s acts = Some s' ∧ (is_Some (exited s') ∨ main s' = DRet).
Proof.
  intros HC. remember (measure s) as n eqn:Hn. revert s Hn.
  induction n as [n IH] using lt_wf_ind. intros s -> Hinv.
  destruct (progress C N s HC Hinv) as [He|[Hr|(a & s1 & Hs)]].
  - exists [], s. by split; [|left].
  - exists [], s. by split; [|right].
  - destruct (IH (measure s1) (measure_step _ _ _ Hs) s1 eq_refl) as (acts & s' & Hrun & Hfin).
    { by eapply inv_step. }
    exists (a :: acts), s'. simpl. by rewrite Hs.
Qed.

(** Nothing runs after the process has exited or the loop has returned. *)
Lemma exited_stuck s : is_Some (exited s) → stuck s.
Proof. intros [e He] a. unfold step. by rewrite He. Qed.

Lemma returned_stuck C N s : inv C N s → main s = DRet → stuck s.
Proof.
  intros Hinv Hm a. pose proof Hinv as [Hc Hs Hle Hw Hn Hl Hr Hp].
  specialize (Hr Hm). unfold step. destruct (exited s); [done|].
  destruct a as [|i|i]; unfold step_main, step_task, step_handoff; rewrite ?Hm; try done.
  - destruct (tasks s !! i) as [t|] eqn:Hi; [|done].
    pose proof (tsum_zero_all _ _ Hr _ _ Hi). by destruct (t_pc t).
  - by destruct (sem_cap s).
Qed.

(** C1. In every state that the dispatch loop of [handleRequest] can
    reach, on any lines and under any schedule, the goroutines between the
    acquisition and the release of a token number at most the capacity of
    [sem], which the code fixes at 500. The tokens in the channel are
    exactly these goroutines and the one the loop is about to start. *)
Theorem in_flight_bounded ls w s :
  reachable (dispatch ls w) s →
  in_flight s + holding (main s) = sem_len s
  ∧ in_flight s ≤ semCapacity
  ∧ semCapacity = 500.
Proof.
  intros Hr. apply inv_reachable in Hr as [Hc Hs Hle Hw Hn Hl Hret Hp].
  unfold in_flight. repeat split; [lia | lia].
Qed.

(** C2. The dispatch loop returns only when every one of the [N] lines
    has a goroutine that has called [wg.Done()]: at the return the
    completion counter is [N]. On no lines it returns in two steps without
    a call of [PutItem]. With a positive capacity the loop is never
    blocked for good, every run is at most [10 N + 3] steps long, and from
    every state a run leads to the return or to an exit of the process. *)
Theorem dispatch_returns_after_all_tasks C ls w s :
  reachable (init C ls w) s →
  (main s = DRet →
     completed s = length ls
     ∧ count_ev is_done_any (trace s) = length ls
     ∧ length (tasks s) = length ls
     ∧ (∀ i t, tasks s !! i = Some t → t_pc t = TExit)
     ∧ wg s = 0)
  ∧ (ls = [] →
     count_ev is_put_any (trace s) = 0
     ∧ ∃ s', run (init C ls w) [Main; Main] = Some s' ∧ main s' = DRet
             ∧ store_calls (trace s') = [])
  ∧ (∀ acts, run (init C ls w) acts = Some s → length acts ≤ 10 * length ls + 3)
  ∧ (0 < C →
     (is_Some (exited s) ∨ main s = DRet ∨ ∃ a s', step s a = Some s')
     ∧ ∃ acts s', run s acts = Some s' ∧ (is_Some (exited s') ∨ main s' = DRet)).
Proof.
  intros Hr. pose proof (inv_reachable _ _ _ _ Hr) as Hinv.
  pose proof (inv_trace_reachable _ _ _ _ Hr) as Htr.
  pose proof Hinv as [Hc Hs Hle Hw Hn Hl Hret Hp].
  pose proof (tsum_partition (tasks s)) as Hpart.
  split; [|split; [|split]].
  - intros Hm. specialize (Hret Hm). rewrite Hm in *. simpl in *.
    rewrite Hl in Hn by done. simpl in Hn. unfold completed.
    rewrite (tr_done_all _ Htr). repeat split; try lia.
    intros i t Hi. pose proof (tsum_zero_all _ _ Hret _ _ Hi). by destruct (t_pc t).
  - intros ->. simpl in *. split; [|by eexists].
    rewrite (tr_put_all _ Htr).
    pose proof (tsum_le_length after_put (tasks s)) as Hle'.
    assert (∀ pc, after_put pc ≤ 1) as Hone by (intros []; simpl; lia).
    specialize (Hle' Hone). lia.
  - intros acts Hrun. apply run_length in Hrun. rewrite measure_init in Hrun. lia.
  - intros HC. split; [by eapply progress | by eapply terminates].
Qed.

Lemma count_ev_elem p e tr : e ∈ tr → p e = true → 1 ≤ count_ev p tr.
Proof.
  induction tr as [|x tr IH]; intros Hin Hp.
  - by apply not_elem_of_nil in Hin.
  - apply elem_of_cons in Hin as [->|Hin]; simpl; [rewrite Hp; lia|].
    specialize (IH Hin Hp). lia.
Qed.

Lemma count_ev_pos p tr : 0 < count_ev p tr → ∃ e, e ∈ tr ∧ p e = true.
Proof.
  induction tr as [|x tr IH]; simpl; [lia|]. intros Hpos.
  destruct (p x) eqn:Hx.
  - exists x. split; [apply elem_of_cons; by left | done].
  - destruct IH as (e & He & Hpe); [lia|]. exists e. split; [|done].
    apply elem_of_cons. by right.
Qed.

Lemma tstage_pos f (l : list task) i :
  0 < tstage f l i → ∃ t, l !! i = Some t ∧ 0 < f (t_pc t).
Proof. unfold tstage. destruct (l !! i) as [t|]; [by exists t | lia]. Qed.

Lemma tstage_le_one f (l : list task) i : (∀ pc, f pc ≤ 1) → tstage f l i ≤ 1.
Proof. intros Hf. unfold tstage. destruct (l !! i); [apply Hf | lia]. Qed.


Lemma after_recv_le_one pc : after_recv pc ≤ 1.
Proof. destruct pc; simpl; lia. Qed.

Lemma terminal_le_one pc : terminal pc ≤ 1.
Proof. destruct pc; simpl; lia. Qed.

(** The process exits only at line 57, after a marshalling error. *)
Lemma exit_cause C ls w s :
  reachable (init C ls w) s → is_Some (exited s) →
  exited s = Some (OsExit 1) ∧ ∃ i e, EvMarshalErr i e ∈ trace s.
Proof.
  intros Hr [x Hx]. pose proof (inv_exit _ _ _ (inv_reachable _ _ _ _ Hr)) as [He|He];
    [congruence|]. split; [done|].
  pose proof (inv_trace_reachable _ _ _ _ Hr) as Htr.
  destruct (tr_exit _ Htr) as [Hn|[Hp|(i & t & Hi & Hpc)]]; [congruence..|].
  pose proof (tr_err _ Htr i) as Hc.
  rewrite (tstage_lookup _ _ _ _ Hi), Hpc in Hc. simpl in Hc.
  destruct (count_ev_pos (is_marshal_err_of i) (trace s)) as (e & Hin & Hp); [lia|].
  destruct e; try done. by eauto.
Qed.

Lemma no_exit_without_marshal_error C ls w s :
  (∀ item, ∃ av, MarshalMap item = inl av) →
  reachable (init C ls w) s → exited s = None.
Proof.
  intros Hok Hr. destruct (exited s) as [x|] eqn:Hx; [|done].
  destruct (exit_cause _ _ _ _ Hr) as (_ & i & e & Hin); [by rewrite Hx|].
  apply (ids_err _ _ (inv_ids_reachable _ _ _ _ Hr)) in Hin as (_ & id & Hm).
  destruct (Hok {| ID := id |}) as [av Hav]. congruence.
Qed.








(** C5, as the code has it. The dispatch loop sends one token for every
    goroutine before it starts it, so a goroutine holds a token before its
    call of [PutItem]. No goroutine receives from [sem] or calls
    [wg.Done()] twice, and a goroutine that has returned, after a write
    that succeeded or failed, has done each exactly once. Unless the
    process exits every goroutine returns. A goroutine whose marshalling
    failed has done neither: [os.Exit] does not run the deferred calls. *)
Theorem token_released_on_return C ls w s :
  reachable (init C ls w) s →
  count_ev is_send (trace s) = length (tasks s) + holding (main s)
  ∧ in_flight s + holding (main s) = sem_len s
  ∧ (∀ i item input err, EvPutItem i item input err ∈ trace s → i < length (tasks s))
  ∧ (∀ i, count_ev (is_recv i) (trace s) ≤ 1 ∧ count_ev (is_done i) (trace s) ≤ 1)
  ∧ (∀ i t, tasks s !! i = Some t → t_pc t = TExit →
       count_ev (is_put i) (trace s) = 1
       ∧ count_ev (is_recv i) (trace s) = 1
       ∧ count_ev (is_done i) (trace s) = 1)
  ∧ (0 < C → exited s = None → stuck s →
       ∀ i t, tasks s !! i = Some t → t_pc t = TExit)
  ∧ (∀ i e, EvMarshalErr i e ∈ trace s →
       count_ev (is_recv i) (trace s) = 0 ∧ count_ev (is_done i) (trace s) = 0).
Proof.
  intros Hr. pose proof (inv_trace_reachable _ _ _ _ Hr) as Htr.
  pose proof (inv_reachable _ _ _ _ Hr) as Hinv.
  pose proof Hinv as [Hc Hs Hle Hw Hn Hl Hret Hp].
  split; [apply Htr|]. split; [unfold in_flight; lia|].
  split; [|split; [|split; [|split]]].
  - intros i item input err Hin.
    pose proof (count_ev_elem (is_put i) _ _ Hin) as Hc1. simpl in Hc1.
    rewrite bool_decide_eq_true_2 in Hc1 by done. specialize (Hc1 eq_refl).
    rewrite (tr_put _ Htr) in Hc1.
    destruct (tstage_pos after_put (tasks s) i) as (t & Ht & _); [lia|].
    by eapply lookup_lt_Some.
  - intros i. rewrite (tr_recv _ Htr), (tr_done _ Htr).
    split; apply tstage_le_one; [apply after_recv_le_one | apply terminal_le_one].
  - intros i t Hi Hpc.
    rewrite (tr_put _ Htr), (tr_recv _ Htr), (tr_done _ Htr).
    rewrite !(tstage_lookup _ _ _ _ Hi), Hpc. done.
  - intros HC He Hstuck i t Hi.
    destruct (progress C _ s HC Hinv) as [[x Hx]|[Hm|(a & s' & Hstep)]].
    + congruence.
    + pose proof (tsum_zero_all _ _ (Hret Hm) _ _ Hi). by destruct (t_pc t).
    + by rewrite Hstuck in Hstep.
  - intros i e Hin.
    apply (ids_err _ _ (inv_ids_reachable _ _ _ _ Hr)) in Hin as (Hst & _).
    destruct (tstage_pos after_err (tasks s) i) as (t & Hi & Hpos); [lia|].
    rewrite (tr_recv _ Htr), (tr_done _ Htr).
    rewrite !(tstage_lookup _ _ _ _ Hi).
    destruct (t_pc t); simpl in *; first [done | lia].
Qed.

(** X16. The capacity of [sem] is not an input: line 109 fixes it at
    500 and it stays 500, so it is never zero. With this capacity the
    process is never blocked for good: a state that is neither exited nor
    returned has an enabled step. *)
Theorem capacity_is_fixed_and_positive ls w s :
  reachable (dispatch ls w) s →
  sem_cap s = semCapacity ∧ semCapacity = 500 ∧ 0 < sem_cap s
  ∧ (is_Some (exited s) ∨ main s = DRet ∨ ∃ a s', step s a = Some s').
Proof.
  intros Hr. pose proof (inv_reachable _ _ _ _ Hr) as Hinv.
  pose proof (inv_cap _ _ _ Hinv) as Hc. rewrite Hc.
  split; [done|]. split; [done|]. split; [unfold semCapacity; lia|].
  eapply progress; [|exact Hinv]. unfold semCapacity. lia.
Qed.

(** A step does not look into the CSV lines: the same schedule runs on
    relabelled lines, through the relabelled states. *)
Lemma step_relabel f s a : step (relabel f s) a = relabel f <$> step s a.
Proof.
  destruct s as [ls m c n g ts uc pc ex tr].
  unfold step; simpl. destruct ex; [done|].
  destruct a as [|i|i]; simpl.
  - unfold step_main; simpl. destruct m; simpl; try done.
    + by destruct ls.
    + by destruct (decide (n < c)).
    + unfold relabel, emit, set_main, set_tasks; simpl.
      by rewrite fmap_app, length_fmap.
    + by destruct (decide (g = 0)).
  - unfold step_task; simpl. rewrite list_lookup_fmap.
    destruct (ts !! i) as [t|]; simpl; [|done].
    unfold relabel, emit, set_pc, set_tasks, set_uuid_calls, set_put_calls,
      set_exited, set_sem_len, set_wg; simpl.
    destruct (t_pc t); simpl; rewrite ?list_fmap_insert; try done.
    + destruct (MarshalMap _); simpl; by rewrite ?list_fmap_insert.
    + destruct (PutItem _ _); simpl; by rewrite ?list_fmap_insert.
    + destruct n; simpl; by rewrite ?list_fmap_insert.
    + destruct g; simpl; by rewrite ?list_fmap_insert.
  - unfold step_handoff; simpl. rewrite list_lookup_fmap.
    destruct c; [|done]. destruct m; simpl; try done.
    destruct (ts !! i) as [t|]; simpl; [|done].
    unfold relabel, emit, set_pc, set_tasks, set_main; simpl.
    destruct (t_pc t); simpl; rewrite ?list_fmap_insert; done.
Qed.

Lemma run_relabel f s acts : run (relabel f s) acts = relabel f <$> run s acts.
Proof.
  revert s. induction acts as [|a acts IH]; intros s; simpl; [done|].
  rewrite step_relabel. destruct (step s a); simpl; [apply IH | done].
Qed.

Lemma store_calls_relabel f tr :
  store_calls (relabel_event f <$> tr) = store_calls tr.
Proof.
  induction tr as [|e tr IH]; [done|]. rewrite fmap_cons.
  destruct e; simpl; rewrite ?IH; done.
Qed.

(** C7. Every value handed to [PutItem] is the marshalled
    [Record{ID: id}], under the table name of the process, for an
    identifier [id] that the same goroutine drew from [uuid.New] in a call
    of its own. The CSV fields have no part in it: the same schedule on
    any other lines hands the same values to the store. *)
Theorem persisted_value_is_id_only C ls w s :
  reachable (init C ls w) s →
  (∀ i item input err, EvPutItem i item input err ∈ trace s →
     ∃ k, w_uuid_calls w ≤ k < uuid_calls s
          ∧ EvNewID i k (uuid_New k) ∈ trace s
          ∧ (∀ j id, EvNewID j k id ∈ trace s → j = i)
          ∧ item = {| ID := uuid_New k |}
          ∧ MarshalMap item = inl (Item input)
          ∧ TableName input = tableName)
  ∧ (∀ f, reachable (init C (f <$> ls) w) (relabel f s)
          ∧ store_calls (trace (relabel f s)) = store_calls (trace s)).
Proof.
  intros Hr. pose proof (inv_ids_reachable _ _ _ _ Hr) as Hids. split.
  - intros i item input err Hin.
    destruct (ids_item _ _ Hids _ _ _ _ Hin) as [k Hk].
    destruct (ids_new _ _ Hids _ _ _ Hk) as (Hid & Hrange & _).
    exists k. split; [done|]. rewrite <- Hid. split; [done|].
    split; [intros j id Hj; by eapply (ids_owner _ _ Hids)|].
    split; [by destruct item; simpl in *; subst|].
    split; [by eapply ids_item_av | by eapply ids_item_table].
  - intros f. split; [|apply store_calls_relabel].
    destruct Hr as [acts Hrun]. exists acts.
    change (init C (f <$> ls) w) with (relabel f (init C ls w)).
    by rewrite run_relabel, Hrun.
Qed.

Lemma submitted_elem r tr :
  r ∈ submitted tr → ∃ i input err, EvPutItem i r input err ∈ tr.
Proof.
  induction tr as [|e tr IH]; simpl; intros Hin.
  - by apply not_elem_of_nil in Hin.
  - assert (Hrest : r ∈ submitted tr → ∃ i input err, EvPutItem i r input err ∈ e :: tr).
    { intros Hr. destruct (IH Hr) as (i & input & err & Hi).
      exists i, input, err. apply elem_of_cons. by right. }
    destruct e; try by apply Hrest.
    apply elem_of_cons in Hin as [->|Hin]; [|by apply Hrest].
    do 3 eexists. apply elem_of_cons. by left.
Qed.

(** An identifier that went to the store is the value of a call of
    [uuid.New] that was made during the run. *)
Lemma submitted_call c0 s r :
  inv_ids c0 s → r ∈ submitted (trace s) →
  ∃ i k, EvNewID i k (ID r) ∈ trace s ∧ ID r = uuid_New k ∧ c0 ≤ k < uuid_calls s
         ∧ 0 < count_ev (is_put i) (trace s).
Proof.
  intros Hids Hin. apply submitted_elem in Hin as (i & input & err & Hput).
  destruct (ids_item _ _ Hids _ _ _ _ Hput) as [k Hk].
  destruct (ids_new _ _ Hids _ _ _ Hk) as (Hid & Hrange & _).
  exists i, k. repeat split; try done; try lia.
  pose proof (count_ev_elem (is_put i) _ _ Hput) as Hc. simpl in Hc.
  rewrite bool_decide_eq_true_2 in Hc by done. specialize (Hc eq_refl). lia.
Qed.

Section Fresh.
Hypothesis uuid_fresh : Inj (=) (=) uuid_New.

(** The identifier of a goroutine about to call [PutItem] has not gone to
    the store before. *)
Lemma put_id_fresh c0 s i t item av :
  inv_ids c0 s → inv_trace s →
  tasks s !! i = Some t → t_pc t = TPut item av →
  ID item ∉ ID <$> submitted (trace s).
Proof.
  intros Hids Htr Hi Hpc Hin.
  apply list_elem_of_fmap in Hin as (r & Heq & Hr).
  destruct (submitted_call _ _ _ Hids Hr) as (j & k' & Hj & Hid' & _ & Hcount).
  destruct (ids_put _ _ Hids _ _ _ _ Hi Hpc) as [k Hk].
  destruct (ids_new _ _ Hids _ _ _ Hk) as (Hid & _ & _).
  assert (k = k') as <- by (apply uuid_fresh; congruence).
  assert (i = j) as <- by (by eapply (ids_owner _ _ Hids)).
  rewrite (tr_put _ Htr), (tstage_lookup _ _ _ _ Hi), Hpc in Hcount. simpl in Hcount. lia.
Qed.

Lemma fresh_step c0 s a s' :
  inv_ids c0 s → inv_trace s → NoDup (ID <$> submitted (trace s)) →
  step s a = Some s' → NoDup (ID <$> submitted (trace s')).
Proof.
  intros Hids Htr Hnd Hstep.
  assert (Hfresh : ∀ i t item av, tasks s !! i = Some t → t_pc t = TPut item av →
                     NoDup (ID item :: (ID <$> submitted (trace s)))).
  { intros i t item av Hi Hpc. apply NoDup_cons. split; [|done].
    by eapply put_id_fresh. }
  clear Hids Htr. destruct s; simpl in *.
  step_cases Hstep; simpl; try done; by eapply Hfresh.
Qed.

Lemma fresh_reachable C ls w s :
  reachable (init C ls w) s → NoDup (ID <$> submitted (trace s)).
Proof.
  intros Hr. pattern s. revert s Hr. apply reachable_ind_from.
  - simpl. apply NoDup_nil_2.
  - intros s a s' Hr IH Hs.
    eapply fresh_step; [by eapply inv_ids_reachable | by eapply inv_trace_reachable | done..].
Qed.

(** C8. If [uuid.New] never returns the same identifier twice, the records
    handed to [PutItem] carry pairwise different identifiers, whatever the
    CSV lines are and also when two lines are equal: two goroutines never
    submit the same identifier, and a second run of the dispatch loop in
    the same process submits none of the identifiers of the first. *)
Theorem fresh_identifiers C ls w s :
  reachable (init C ls w) s →
  NoDup (ID <$> submitted (trace s))
  ∧ (∀ i j item item' input input' err err',
       EvPutItem i item input err ∈ trace s →
       EvPutItem j item' input' err' ∈ trace s →
       i ≠ j → ID item ≠ ID item')
  ∧ (∀ C' ls' s' r r',
       reachable (init C' ls' (world_of s)) s' →
       r ∈ submitted (trace s) → r' ∈ submitted (trace s') → ID r ≠ ID r').
Proof.
  intros Hr. pose proof (inv_ids_reachable _ _ _ _ Hr) as Hids.
  split; [by eapply fresh_reachable|]. split.
  - intros i j item item' input input' err err' Hi Hj Hne Heq.
    destruct (ids_item _ _ Hids _ _ _ _ Hi) as [k Hk].
    destruct (ids_item _ _ Hids _ _ _ _ Hj) as [k' Hk'].
    destruct (ids_new _ _ Hids _ _ _ Hk) as (Hid & _ & _).
    destruct (ids_new _ _ Hids _ _ _ Hk') as (Hid' & _ & _).
    assert (k = k') as <- by (apply uuid_fresh; congruence).
    apply Hne. by eapply (ids_owner _ _ Hids).
  - intros C' ls' s' r r' Hr' Hin Hin' Heq.
    pose proof (inv_ids_reachable _ _ _ _ Hr') as Hids'. simpl in Hids'.
    destruct (submitted_call _ _ _ Hids Hin) as (i & k & _ & Hid & Hk & _).
    destruct (submitted_call _ _ _ Hids' Hin') as (i' & k' & _ & Hid' & Hk' & _).
    assert (k = k') as <- by (apply uuid_fresh; congruence). lia.
Qed.

End Fresh.

(** ** Further facts on the dispatch loop *)

Import Observe.

Lemma dispatched_step s a s' : step s a = Some s' → dispatched s' = dispatched s.
Proof.
  intros Hstep. unfold dispatched. destruct s; simpl in *.
  step_cases Hstep; simpl; rewrite ?fmap_app, ?list_fmap_insert; simpl;
    rewrite <- ?app_assoc; simpl; try done.
  all: rewrite list_insert_id; [done|]; rewrite list_lookup_fmap;
    match goal with Hl : _ !! _ = Some _ |- _ => by rewrite Hl end.
Qed.

Lemma logged_step s a s' :
  step s a = Some s' →
  reverse (logged_lines (trace s')) ++ lines s'
  = reverse (logged_lines (trace s)) ++ lines s.
Proof.
  intros Hstep. destruct s; simpl in *.
  step_cases Hstep; simpl; try done.
  by rewrite reverse_cons, <- app_assoc.
Qed.

Lemma dispatched_reachable C ls w s :
  reachable (init C ls w) s → dispatched s = ls.
Proof.
  revert s. apply reachable_ind_from; [done|].
  intros s a s' _ IH Hs. by rewrite (dispatched_step _ _ _ Hs).
Qed.

Lemma logged_reachable C ls w s :
  reachable (init C ls w) s → reverse (logged_lines (trace s)) ++ lines s = ls.
Proof.
  revert s. apply reachable_ind_from; [done|].
  intros s a s' _ IH Hs. by rewrite (logged_step _ _ _ Hs).
Qed.

(** X1. The dispatch loop hands the lines to the goroutines in the order
    of the input: goroutine [i] works on line [i], and at every moment the
    lines of the goroutines, the line in the hands of the loop and the
    queue make up the input, with nothing lost, doubled or moved. The log
    entries of line 112 are the lines taken so far, in this order. *)
Theorem lines_dispatched_in_order C ls w s :
  reachable (init C ls w) s →
  dispatched s = ls
  ∧ (∀ i t, tasks s !! i = Some t → ls !! i = Some (t_record t))
  ∧ reverse (logged_lines (trace s)) ++ lines s = ls.
Proof.
  intros Hr. pose proof (dispatched_reachable _ _ _ _ Hr) as Hd.
  split; [done|]. split; [|by eapply logged_reachable].
  intros i t Hi. rewrite <- Hd. unfold dispatched.
  rewrite lookup_app_l by (rewrite length_fmap; by eapply lookup_lt_Some).
  by rewrite list_lookup_fmap, Hi.
Qed.

Lemma tsum_mono f g (l : list task) :
  (∀ pc, f pc ≤ g pc) → tsum f l ≤ tsum g l.
Proof.
  intros Hfg. unfold tsum. induction l as [|t l IH]; simpl; [done|].
  specialize (Hfg (t_pc t)). lia.
Qed.

Lemma tstage_mono f g (l : list task) i :
  (∀ pc, f pc ≤ g pc) → tstage f l i ≤ tstage g l i.
Proof. intros Hfg. unfold tstage. destruct (l !! i); [apply Hfg | done]. Qed.

(** X2. A goroutine calls [wg.Done()] only after its receive from [sem],
    and receives only after its call of [PutItem]: the deferred calls run
    in the reverse order of their [defer] statements. So when [wg.Wait()]
    returns the channel is empty and no goroutine holds a token. *)
Theorem tokens_released_before_done C ls w s :
  reachable (init C ls w) s →
  (∀ i, count_ev (is_done i) (trace s) ≤ count_ev (is_recv i) (trace s)
        ∧ count_ev (is_recv i) (trace s) ≤ count_ev (is_put i) (trace s))
  ∧ (main s = DRet → sem_len s = 0 ∧ in_flight s = 0).
Proof.
  intros Hr. pose proof (inv_trace_reachable _ _ _ _ Hr) as Htr.
  pose proof (inv_reachable _ _ _ _ Hr) as [Hc Hs Hle Hw Hn Hl Hret Hp].
  split.
  - intros i. rewrite (tr_done _ Htr), (tr_recv _ Htr), (tr_put _ Htr).
    split; apply tstage_mono; intros []; simpl; lia.
  - intros Hm. specialize (Hret Hm). rewrite Hm in Hs. simpl in Hs.
    pose proof (tsum_mono holds_token not_done (tasks s)) as Hmono.
    unfold in_flight. assert (∀ pc, holds_token pc ≤ not_done pc) as Hpc
      by (intros []; simpl; lia).
    specialize (Hmono Hpc). lia.
Qed.

Lemma panic_step s a s' :
  count_ev is_panic (trace s) = 0 → step s a = Some s' →
  count_ev is_panic (trace s') = 0 ∨ exited s' = Some PanicNegativeCounter.
Proof.
  intros Hz Hstep. destruct s; simpl in *.
  step_cases Hstep; simpl; try (by left); by right.
Qed.

(** X3. The counter of the WaitGroup never goes below zero: no goroutine
    ever calls [wg.Done()] on a counter that is zero, so the process never
    ends in the panic of [sync.WaitGroup]. The counter is the number of
    goroutines that have not called [Done], plus one while the loop is
    between [wg.Add(1)] and the [go] statement. *)
Theorem waitgroup_never_negative C ls w s :
  reachable (init C ls w) s →
  exited s ≠ Some PanicNegativeCounter
  ∧ count_ev is_panic (trace s) = 0
  ∧ wg s = tsum not_done (tasks s) + pending (main s).
Proof.
  intros Hr. pose proof (inv_reachable _ _ _ _ Hr) as Hinv.
  split; [by destruct (inv_exit _ _ _ Hinv) as [->| ->]|].
  split; [|apply Hinv].
  revert s Hr Hinv. apply (reachable_ind_from _ (λ s, _ → _)); [done|].
  intros s a s' Hr IH Hs Hinv'.
  destruct (panic_step s a s') as [Hz|Hp]; [|done|done|].
  - apply IH. by eapply inv_reachable.
  - destruct (inv_exit _ _ _ Hinv') as [He|He]; congruence.
Qed.

(** X4. A goroutine never waits: as long as the process has not exited,
    every goroutine that has not returned can take its next step. Its
    deferred receive always finds a token in [sem], whatever the capacity
    of the channel. *)
Theorem goroutine_never_blocks C ls w s i t :
  reachable (init C ls w) s → exited s = None →
  tasks s !! i = Some t → t_pc t ≠ TExit →
  ∃ s', step s (Task i) = Some s' ∧ (t_pc t = TRelease → 0 < sem_len s).
Proof.
  intros Hr He Hi Hpc. pose proof (inv_reachable _ _ _ _ Hr) as Hinv.
  destruct (task_enabled _ _ _ _ _ Hinv He Hi Hpc) as [s' Hs]. exists s'.
  split; [done|]. intros Hrel.
  pose proof (tsum_lookup_le holds_token _ _ _ Hi) as Hh. rewrite Hrel in Hh.
  pose proof (inv_sem _ _ _ Hinv). simpl in Hh. lia.
Qed.

(** X5. The dispatch loop waits at its send exactly when 500 goroutines
    hold a token; on at most 500 lines it never waits there. *)
Theorem send_blocks_only_when_full ls w s line :
  reachable (dispatch ls w) s → exited s = None → main s = DSend line →
  (step s Main = None ↔ in_flight s = semCapacity)
  ∧ (length ls ≤ semCapacity → is_Some (step s Main)).
Proof.
  intros Hr He Hm. pose proof (inv_reachable _ _ _ _ Hr) as [Hc Hs Hle Hw Hn Hl Hret Hp].
  rewrite Hm in *. simpl in *. unfold step, step_main, in_flight. rewrite He, Hm.
  pose proof (tsum_le_length holds_token (tasks s)) as Hlen.
  assert (∀ pc, holds_token pc ≤ 1) as Hone by (intros []; simpl; lia).
  specialize (Hlen Hone).
  destruct (decide (sem_len s < sem_cap s)) as [Hlt|Hge].
  - split; [split; [done | lia] | by eexists].
  - split; [split; [lia | done] | lia].
Qed.

Lemma calls_step s a s' :
  step s a = Some s' →
  uuid_calls s' + tsum after_newid (tasks s) = uuid_calls s + tsum after_newid (tasks s')
  ∧ put_calls s' + tsum after_put (tasks s) = put_calls s + tsum after_put (tasks s').
Proof.
  intros Hstep. destruct s; simpl in *.
  step_cases Hstep; tsum_facts; simpl in *; lia.
Qed.

Lemma calls_reachable C ls w s :
  reachable (init C ls w) s →
  uuid_calls s = w_uuid_calls w + tsum after_newid (tasks s)
  ∧ put_calls s = w_put_calls w + tsum after_put (tasks s).
Proof.
  revert s. apply reachable_ind_from; [simpl; lia|].
  intros s a s' _ [IH1 IH2] Hs. pose proof (calls_step _ _ _ Hs). lia.
Qed.

Lemma returned_calls C ls w s :
  reachable (init C ls w) s → main s = DRet →
  uuid_calls s = w_uuid_calls w + length ls
  ∧ put_calls s = w_put_calls w + length ls.
Proof.
  intros Hr Hm. destruct (calls_reachable _ _ _ _ Hr) as [Hu Hp].
  pose proof (inv_reachable _ _ _ _ Hr) as [Hc Hs Hle Hw Hn Hl Hret Hx].
  specialize (Hret Hm). rewrite Hm in Hn. rewrite Hl in Hn by (by rewrite Hm).
  simpl in Hn. pose proof (tsum_partition (tasks s)) as Hpart.
  pose proof (tsum_mono terminal after_newid (tasks s)) as H1.
  pose proof (tsum_mono terminal after_put (tasks s)) as H2.
  pose proof (tsum_le_length after_newid (tasks s)) as H3.
  pose proof (tsum_le_length after_put (tasks s)) as H4.
  assert (∀ pc, terminal pc ≤ after_newid pc) as A1 by (intros []; simpl; lia).
  assert (∀ pc, terminal pc ≤ after_put pc) as A2 by (intros []; simpl; lia).
  assert (∀ pc, after_newid pc ≤ 1) as A3 by (intros []; simpl; lia).
  assert (∀ pc, after_put pc ≤ 1) as A4 by (intros []; simpl; lia).
  specialize (H1 A1). specialize (H2 A2). specialize (H3 A3). specialize (H4 A4). lia.
Qed.

(** X6. The process calls [uuid.New] once for every goroutine that has
    passed line 49 and [PutItem] once for every goroutine that has passed
    line 66, and nowhere else: when the loop returns on [N] lines each has
    been called exactly [N] times in the run. *)
Theorem one_call_per_line C ls w s :
  reachable (init C ls w) s →
  uuid_calls s = w_uuid_calls w + tsum after_newid (tasks s)
  ∧ put_calls s = w_put_calls w + count_ev is_put_any (trace s)
  ∧ (main s = DRet →
       uuid_calls s = w_uuid_calls w + length ls
       ∧ put_calls s = w_put_calls w + length ls).
Proof.
  intros Hr. destruct (calls_reachable _ _ _ _ Hr) as [Hu Hp].
  rewrite (tr_put_all _ (inv_trace_reachable _ _ _ _ Hr)).
  split; [done|]. split; [done|]. by eapply returned_calls.
Qed.



(** X7. A step never takes a completion back: the completion counter
    stays or grows by one, the number of goroutines in flight changes by
    at most one, and the trace only grows. *)
Theorem completion_is_monotone s a s' :
  step s a = Some s' →
  completed s ≤ completed s' ≤ completed s + 1
  ∧ in_flight s - 1 ≤ in_flight s' ≤ in_flight s + 1
  ∧ ∃ new, trace s' = new ++ trace s.
Proof.
  intros Hstep. unfold completed, in_flight. destruct s; simpl in *.
  step_cases Hstep; tsum_facts; simpl in *.
  all: split; [lia|]; split; [lia|].
  all: first [ by exists [] | by eexists [_] | by eexists [_; _] ].
Qed.

End IngestFacts.

(** * Facts on the handler *)

Section HandlerFacts.
Import Boundary Handler.
Context `{CO : Collaborators} `{RD : Readers}.

Lemma parts_loop_success w parts scheds r w' :
  Forall reads_well parts →
  parts_loop w parts scheds = Some (Responded r w') → r = success.
Proof.
  intros Hwell. revert w scheds.
  induction Hwell as [|x parts Hx _ IH]; intros w scheds Hloop; simpl in Hloop.
  - by simplify_eq.
  - destruct x as [part|e]; [|done]. simpl in Hx.
    destruct (decide (FormName part = "file")) as [Hf|Hf]; [|by eapply IH].
    destruct (Hx Hf) as [ls Hls]. rewrite Hls in Hloop.
    destruct scheds as [|acts scheds]; [done|].
    destruct (run (dispatch ls w) acts) as [s|]; [|done].
    destruct (exited s); [done|].
    destruct (main s); try done. by eapply IH.
Qed.

Lemma parts_loop_can_succeed w parts :
  (∀ item, ∃ av, MarshalMap item = inl av) →
  Forall reads_well parts →
  ∃ scheds w', parts_loop w parts scheds = Some (Responded success w').
Proof.
  intros Hok Hwell. revert w.
  induction Hwell as [|x parts Hx _ IH]; intros w; simpl.
  - by exists [], w.
  - destruct x as [part|e]; [|done]. simpl in Hx.
    destruct (decide (FormName part = "file")) as [Hf|Hf]; [|apply IH].
    destruct (Hx Hf) as [ls Hls]. rewrite Hls.
    destruct (terminates semCapacity (length ls) (dispatch ls w))
      as (acts & s & Hrun & Hfin); [unfold semCapacity; lia | apply inv_init |].
    assert (Hr : reachable (dispatch ls w) s) by (by exists acts).
    pose proof (no_exit_without_marshal_error _ _ _ _ Hok Hr) as Hne.
    destruct Hfin as [[x Hx']|Hm]; [congruence|].
    destruct (IH (world_of s)) as (scheds & w' & Hloop).
    exists (acts :: scheds), w'. by rewrite Hrun, Hne, Hm.
Qed.

(** C9, as the code has it. For a POST request whose parts are all read
    up to [io.EOF] and whose parts [file] parse as CSV, every return of
    the handler is the response 200 [CSV data processed successfully],
    whatever [PutItem] answered for the lines; and if no marshalling fails
    the handler can always run to that response. *)
Theorem handler_reports_success w request :
  HTTPMethod request = "POST" →
  (∀ boundary,
     extractBoundary TrimSpace (default EmptyString (Headers request !! "Content-Type"))
       = Some boundary →
     Forall reads_well (NextParts (Body request) boundary)) →
  (∀ scheds r w', handleRequest w request scheds = Some (Responded r w') →
                  r = success
                  ∧ StatusCode r = 200%Z
                  ∧ ResponseBody r = "CSV data processed successfully")
  ∧ ((∀ item, ∃ av, MarshalMap item = inl av) →
     ∃ scheds w', handleRequest w request scheds = Some (Responded success w')).
Proof.
  intros Hpost Hwell. unfold handleRequest.
  destruct (decide (HTTPMethod request ≠ "POST")) as [Hne|_]; [done|].
  destruct (extractBoundary_loop_spec TrimSpace
              (GoStrings.Split (default EmptyString (Headers request !! "Content-Type")) ";"))
    as (boundary & Hb & _).
  fold (extractBoundary TrimSpace (default EmptyString (Headers request !! "Content-Type"))) in Hb.
  rewrite Hb. specialize (Hwell boundary Hb). split.
  - intros scheds r w' Hloop.
    assert (r = success) as -> by (by eapply parts_loop_success). done.
  - intros Hok. by apply parts_loop_can_succeed.
Qed.

(** ** Further facts on the handler *)

Import Observe.

Lemma parts_loop_world w parts scheds r w' :
  parts_loop w parts scheds = Some (Responded r w') →
  w_uuid_calls w' = w_uuid_calls w + ingested parts
  ∧ w_put_calls w' = w_put_calls w + ingested parts.
Proof.
  revert w scheds. induction parts as [|x parts IH]; intros w scheds Hloop; simpl in *.
  - simplify_eq. lia.
  - destruct x as [part|e]; [|simplify_eq; lia].
    destruct (decide (FormName part = "file")) as [Hf|Hf]; [|by eapply IH].
    destruct (csv_ReadAll (Content part)) as [ls|e]; [|simplify_eq; lia].
    destruct scheds as [|acts scheds]; [done|].
    destruct (run (dispatch ls w) acts) as [s|] eqn:Hrun; [|done].
    destruct (exited s); [done|]. destruct (main s) eqn:Hm; try done.
    apply IH in Hloop as [Hu Hp]. simpl in *.
    destruct (returned_calls semCapacity ls w s) as [Hu' Hp']; [by exists acts | done |].
    lia.
Qed.

(** X8. Nothing is taken back. When the handler answers, with whatever
    status, the lines of every part [file] in front of the part at which
    it stopped have each had their call of [uuid.New] and of [PutItem]:
    the two counters of the process have grown by exactly the number of
    these lines, and by nothing for a request that is not a POST. *)
Theorem writes_before_a_failure_are_kept w request scheds r w' :
  handleRequest w request scheds = Some (Responded r w') →
  w_uuid_calls w' = w_uuid_calls w + handled_lines request
  ∧ w_put_calls w' = w_put_calls w + handled_lines request.
Proof.
  unfold handleRequest, handled_lines.
  destruct (decide (HTTPMethod request ≠ "POST")); [intros; simplify_eq; lia|].
  destruct (extractBoundary _ _); [|done]. apply parts_loop_world.
Qed.

Lemma parts_loop_outcome w parts scheds o :
  parts_loop w parts scheds = Some o →
  match o with
  | Responded r _ =>
      r = success
      ∨ (r = read_error_response ∧ ∃ e, inr e ∈ parts)
      ∨ (∃ part e, inl part ∈ parts ∧ FormName part = "file"
                   ∧ csv_ReadAll (Content part) = inr e ∧ r = csv_error_response e)
  | ProcessExit e => e = OsExit 1
  | Panicked => False
  end.
Proof.
  revert w scheds. induction parts as [|x parts IH]; intros w scheds Hloop; simpl in *.
  - simplify_eq. by left.
  - assert (Hlift : ∀ w1 scheds1, parts_loop w1 parts scheds1 = Some o →
        match o with
        | Responded r _ =>
            r = success
            ∨ (r = read_error_response ∧ ∃ e, inr e ∈ x :: parts)
            ∨ (∃ part e, inl part ∈ x :: parts ∧ FormName part = "file"
                         ∧ csv_ReadAll (Content part) = inr e ∧ r = csv_error_response e)
        | ProcessExit e => e = OsExit 1
        | Panicked => False
        end).
    { intros w1 scheds1 H1. specialize (IH _ _ H1). destruct o as [r w2|e|]; try done.
      destruct IH as [?|[[? [e He]]|(part & e & Hin & ? & ? & ?)]]; [by left| |].
      - right. left. split; [done|]. exists e. apply elem_of_cons. by right.
      - right. right. exists part, e. split; [apply elem_of_cons; by right | done]. }
    destruct x as [part|e].
    + destruct (decide (FormName part = "file")) as [Hf|Hf]; [|by eapply Hlift].
      destruct (csv_ReadAll (Content part)) as [ls|e] eqn:Hcsv.
      * destruct scheds as [|acts scheds]; [done|].
        destruct (run (dispatch ls w) acts) as [s|] eqn:Hrun; [|done].
        destruct (exited s) as [x|] eqn:He.
        -- simplify_eq.
           destruct (exit_cause semCapacity ls w s) as [Hx _];
             [by exists acts | by rewrite He |]. congruence.
        -- destruct (main s); try done. by eapply Hlift.
      * simplify_eq. right. right. exists part, e.
        split; [apply elem_of_cons; by left | done].
    + simplify_eq. right. left. split; [done|]. exists e. apply elem_of_cons. by left.
Qed.

(** X9. What a call of the handler can come to. It never panics. If the
    process ends while it runs, the exit status is 1, from line 57. A
    response is 405 with an empty body exactly for a request that is not
    a POST; for a POST it is the success response, or 500 [Error
    processing file] after a part that could not be read, or 400 with the
    error of the CSV reader after a part [file] that does not parse. *)
Theorem handler_outcomes w request scheds o :
  handleRequest w request scheds = Some o →
  match o with
  | Responded r _ =>
      (HTTPMethod request ≠ "POST"
       ∧ r = {| StatusCode := 405; ResponseBody := EmptyString |})
      ∨ (HTTPMethod request = "POST"
         ∧ ∃ boundary,
             extractBoundary TrimSpace
               (default EmptyString (Headers request !! "Content-Type")) = Some boundary
             ∧ (r = success
                ∨ (r = read_error_response
                   ∧ ∃ e, inr e ∈ NextParts (Body request) boundary)
                ∨ (∃ part e, inl part ∈ NextParts (Body request) boundary
                             ∧ FormName part = "file"
                             ∧ csv_ReadAll (Content part) = inr e
                             ∧ r = csv_error_response e)))
  | ProcessExit e => e = OsExit 1
  | Panicked => False
  end.
Proof.
  unfold handleRequest.
  destruct (decide (HTTPMethod request ≠ "POST")) as [Hne|Hpost].
  - intros ?; simplify_eq. by left.
  - assert (HTTPMethod request = "POST") as Hp
      by (destruct (decide (HTTPMethod request = "POST")); [done | contradiction]).
    destruct (extractBoundary_loop_spec TrimSpace
                (GoStrings.Split (default EmptyString (Headers request !! "Content-Type")) ";"))
      as (boundary & Hb & _).
    fold (extractBoundary TrimSpace (default EmptyString (Headers request !! "Content-Type")))
      in Hb.
    rewrite Hb. intros Hloop. apply parts_loop_outcome in Hloop.
    destruct o as [r w'|e|]; try done. right. split; [done|]. by exists boundary.
Qed.

(** X10. Parts that are not named [file] change nothing: the loop over
    the parts comes to the same outcome without them. *)
Theorem other_parts_are_ignored w parts scheds :
  parts_loop w parts scheds = parts_loop w (drop_other_parts parts) scheds.
Proof.
  revert w scheds. induction parts as [|x parts IH]; intros w scheds; simpl; [done|].
  destruct x as [part|e]; [|done].
  destruct (decide (FormName part = "file")) as [Hf|Hf]; simpl.
  - destruct (decide (FormName part = "file")); [|done].
    destruct (csv_ReadAll (Content part)); [|done].
    destruct scheds as [|acts scheds]; [done|].
    destruct (run (dispatch l w) acts) as [s|]; [|done].
    destruct (exited s); [done|]. destruct (main s); first [done | apply IH].
  - apply IH.
Qed.

(** X11. The loop over the parts returns at the first part that cannot be
    read and at the first part [file] that does not parse: what follows
    such a part in the body is never looked at. *)
Theorem nothing_after_a_failed_part w before x rest scheds :
  stops x →
  parts_loop w (before ++ x :: rest) scheds = parts_loop w (before ++ [x]) scheds.
Proof.
  intros Hx. revert w scheds.
  induction before as [|y before IH]; intros w scheds; simpl.
  - destruct x as [part|e]; [|done]. destruct Hx as [Hf [e He]].
    destruct (decide (FormName part = "file")); [|done]. by rewrite He.
  - destruct y as [part|e]; [|done].
    destruct (decide (FormName part = "file")); [|apply IH].
    destruct (csv_ReadAll (Content part)); [|done].
    destruct scheds as [|acts scheds]; [done|].
    destruct (run (dispatch l w) acts) as [s|]; [|done].
    destruct (exited s); [done|]. destruct (main s); first [done | apply IH].
Qed.

(** X12. The header is looked up under the key [Content-Type] as it is
    written here. A POST request without this key, whatever its other
    headers, is read with the empty boundary (given that trimming the
    empty string gives the empty string). *)
Theorem missing_content_type_gives_empty_boundary w request scheds :
  HTTPMethod request = "POST" →
  Headers request !! "Content-Type" = None →
  TrimSpace EmptyString = EmptyString →
  extractBoundary TrimSpace (default EmptyString (Headers request !! "Content-Type"))
    = Some EmptyString
  ∧ handleRequest w request scheds
    = parts_loop w (NextParts (Body request) EmptyString) scheds.
Proof.
  intros Hpost Hnone Htrim. unfold handleRequest.
  rewrite decide_False by (intros Hne; by apply Hne).
  rewrite Hnone. simpl.
  assert (Hb : extractBoundary TrimSpace EmptyString = Some EmptyString).
  { unfold extractBoundary. simpl. by rewrite Htrim. }
  by rewrite Hb.
Qed.

End HandlerFacts.

(** ** The theorems on concrete runs *)

(** The bound at a state with two goroutines in flight. *)
Lemma in_flight_bounded_witness :
  reachable (CO := demo [] []) (dispatch demo_lines fresh_world) two_in_flight
  ∧ in_flight two_in_flight = 2
  ∧ in_flight two_in_flight ≤ semCapacity.
Proof.
  assert (Hr : reachable (CO := demo [] []) (dispatch demo_lines fresh_world) two_in_flight).
  { exists (spawn 3 ++ finish 0). vm_compute. reflexivity. }
  split; [exact Hr|]. split; [vm_compute; reflexivity|].
  exact (proj1 (proj2 (in_flight_bounded (CO := demo [] []) _ _ _ Hr))).
Defined.

(** The return of the loop on three lines: the completion counter is three. *)
Lemma dispatch_returns_after_all_tasks_witness :
  reachable (CO := demo [] [1]) (init semCapacity demo_lines fresh_world) all_done
  ∧ main all_done = DRet
  ∧ completed all_done = 3.
Proof.
  assert (Hr : reachable (CO := demo [] [1]) (init semCapacity demo_lines fresh_world) all_done).
  { exists (spawn 3 ++ finish 0 ++ finish 1 ++ finish 2 ++ [Main; Main]).
    vm_compute. reflexivity. }
  assert (Hm : main all_done = DRet) by (vm_compute; reflexivity).
  split; [exact Hr|]. split; [exact Hm|].
  exact (proj1 (proj1 (dispatch_returns_after_all_tasks (CO := demo [] [1]) _ _ _ _ Hr) Hm)).
Defined.

(** The schedule that leads to [all_done]. *)
Lemma all_done_reachable :
  reachable (CO := demo [] [1]) (init semCapacity demo_lines fresh_world) all_done.
Proof.
  exists (spawn 3 ++ finish 0 ++ finish 1 ++ finish 2 ++ [Main; Main]).
  vm_compute. reflexivity.
Defined.





(** Between the failure and the exit the other goroutines run on: here
    the second line is handed to [PutItem] after the first goroutine has
    printed its marshalling error and before it has called [os.Exit]. *)
Example put_between_failure_and_exit :
  reachable (CO := demo [0] []) (dispatch [["dave"; "52"]; ["erin"; "38"]] fresh_world)
    late_put
  ∧ exited late_put = Some (OsExit 1)
  ∧ take 5 (trace late_put)
    = [EvExit 0 1;
       EvPutItem 1 {| ID := "uuid-1" |}
         {| TableName := "table-name"; Item := {[ "ID" := AttrS "uuid-1" ]} |} None;
       EvNewID 1 1 "uuid-1";
       EvLogRecord 1 ["erin"; "38"];
       EvMarshalErr 0 "unsupported type"].
Proof.
  split; [|split; vm_compute; reflexivity].
  exists (spawn 2 ++ replicate 5 (Task 0) ++ replicate 4 (Task 1) ++ [Task 0]).
  vm_compute. reflexivity.
Qed.

(** C5, the claim as stated fails on the fatal path: the goroutine whose
    marshalling fails ends the process at line 57 without its deferred
    calls. The token stays in [sem], the counter of [wg] stays at one, and
    nothing can run any more. *)
Lemma fatal_path_keeps_token :
  reachable (CO := demo [0] []) (dispatch [["carol"; "41"]] fresh_world) lone_abort
  ∧ exited lone_abort = Some (OsExit 1)
  ∧ EvMarshalErr 0 "unsupported type" ∈ trace lone_abort
  ∧ count_ev (is_recv 0) (trace lone_abort) = 0
  ∧ count_ev (is_done 0) (trace lone_abort) = 0
  ∧ sem_len lone_abort = 1 ∧ wg lone_abort = 1
  ∧ stuck (CO := demo [0] []) lone_abort.
Proof.
  split; [exists (spawn 1 ++ finish 0); vm_compute; reflexivity|].
  split; [vm_compute; reflexivity|].
  split.
  { unfold lone_abort, after. vm_compute run. simpl. apply elem_of_cons. right.
    apply elem_of_cons. by left. }
  do 4 (split; [vm_compute; reflexivity|]).
  apply exited_stuck. by eexists.
Qed.

(** The goroutine whose write failed has released and called [Done] once. *)
Lemma token_released_on_return_witness :
  reachable (CO := demo [] [1]) (init semCapacity demo_lines fresh_world) all_done
  ∧ count_ev (is_recv 1) (trace all_done) = 1
  ∧ count_ev (is_done 1) (trace all_done) = 1.
Proof.
  split; [exact all_done_reachable|].
  pose proof (token_released_on_return (CO := demo [] [1]) _ _ _ _ all_done_reachable)
    as (_ & _ & _ & _ & Hret & _).
  destruct (Hret 1 {| t_record := ["bob"; "25"]; t_pc := TExit |}) as (_ & Hrecv & Hdone).
  - vm_compute. reflexivity.
  - reflexivity.
  - by split.
Defined.

(** The schedule that leads to [two_in_flight]. *)
Lemma two_in_flight_reachable :
  reachable (CO := demo [] []) (dispatch demo_lines fresh_world) two_in_flight.
Proof. exists (spawn 3 ++ finish 0). vm_compute. reflexivity. Defined.

(** The capacity at a state of the loop of [handleRequest]. *)
Lemma capacity_is_fixed_and_positive_witness :
  reachable (CO := demo [] []) (dispatch demo_lines fresh_world) two_in_flight
  ∧ sem_cap two_in_flight = semCapacity ∧ 0 < sem_cap two_in_flight.
Proof.
  split; [exact two_in_flight_reachable|].
  pose proof (capacity_is_fixed_and_positive (CO := demo [] []) _ _ _
                two_in_flight_reachable) as (Hc & _ & Hpos & _).
  by split.
Defined.

(** The three values that reached the store, and the same run on empty lines. *)
Lemma persisted_value_is_id_only_witness :
  reachable (CO := demo [] [1]) (init semCapacity demo_lines fresh_world) all_done
  ∧ store_calls (trace all_done)
    = (λ id, {| TableName := "table-name"; Item := {[ "ID" := AttrS id ]} |})
      <$> ["uuid-2"; "uuid-1"; "uuid-0"]
  ∧ store_calls (trace (relabel (λ _, []) all_done)) = store_calls (trace all_done).
Proof.
  split; [exact all_done_reachable|]. split; [vm_compute; reflexivity|].
  exact (proj2 (proj2 (persisted_value_is_id_only (CO := demo [] [1]) _ _ _ _
                         all_done_reachable) (λ _, []))).
Defined.

(** The identifiers of the examples are pairwise different. *)
Lemma demo_uuid_inj : Inj (=) (=) demo_uuid.
Proof.
  intros k k' Heq. unfold demo_uuid in Heq.
  apply (inj (String.app "uuid-")) in Heq. by apply (inj pretty) in Heq.
Qed.

(** Two equal lines, two different identifiers. *)
Lemma fresh_identifiers_witness :
  Inj (=) (=) demo_uuid
  ∧ reachable (CO := demo [] [1]) (init semCapacity demo_lines fresh_world) all_done
  ∧ ID <$> submitted (trace all_done) = ["uuid-2"; "uuid-1"; "uuid-0"]
  ∧ NoDup (ID <$> submitted (trace all_done)).
Proof.
  split; [exact demo_uuid_inj|]. split; [exact all_done_reachable|].
  split; [vm_compute; reflexivity|].
  exact (proj1 (fresh_identifiers (CO := demo [] [1]) demo_uuid_inj _ _ _ _
                  all_done_reachable)).
Defined.

(** C9, the claim as stated fails: on a body that is cut off after its
    part [file] the dispatch loop runs and returns, all three lines
    written, and the handler then answers 500 for the next part. *)
Lemma truncated_body_not_success :
  (∃ s, run (CO := demo [] []) (dispatch demo_lines fresh_world) run_all = Some s
        ∧ main s = DRet ∧ completed s = 3)
  ∧ Handler.handleRequest (CO := demo [] []) (RD := demo_readers)
      fresh_world (upload "truncated") [run_all]
    = Some (Handler.Responded
              {| Handler.StatusCode := 500; Handler.ResponseBody := "Error processing file" |}
              {| w_uuid_calls := 3; w_put_calls := 3 |}).
Proof.
  split; [eexists; split; [vm_compute; reflexivity|]; split; vm_compute; reflexivity|].
  vm_compute. reflexivity.
Qed.

(** A complete body: the handler answers 200 although the store failed a call. *)
Lemma handler_reports_success_witness :
  Handler.handleRequest (CO := demo [] [1]) (RD := demo_readers)
      fresh_world (upload "complete") [run_all]
    = Some (Handler.Responded Handler.success {| w_uuid_calls := 3; w_put_calls := 3 |})
  ∧ Handler.StatusCode Handler.success = 200%Z.
Proof.
  assert (Hrun : Handler.handleRequest (CO := demo [] [1]) (RD := demo_readers)
      fresh_world (upload "complete") [run_all]
    = Some (Handler.Responded Handler.success {| w_uuid_calls := 3; w_put_calls := 3 |}))
    by (vm_compute; reflexivity).
  split; [exact Hrun|].
  refine (proj1 (proj2 (proj1 (handler_reports_success (CO := demo [] [1]) (RD := demo_readers)
            fresh_world (upload "complete") _ _) _ _ _ Hrun))).
  - reflexivity.
  - intros boundary Hb. vm_compute in Hb. injection Hb as <-.
    repeat constructor. intros _. by eexists.
Defined.

(** ** The further facts on concrete runs *)

(** Three goroutines on the three lines, in the order of the input. *)
Lemma lines_dispatched_in_order_witness :
  reachable (CO := demo [] []) (dispatch demo_lines fresh_world) two_in_flight
  ∧ t_record <$> tasks two_in_flight = demo_lines
  ∧ Observe.dispatched two_in_flight = demo_lines.
Proof.
  split; [exact two_in_flight_reachable|]. split; [vm_compute; reflexivity|].
  exact (proj1 (lines_dispatched_in_order (CO := demo [] []) _ _ _ _
                  two_in_flight_reachable)).
Defined.

(** At the return of the loop the channel is empty. *)
Lemma tokens_released_before_done_witness :
  reachable (CO := demo [] [1]) (init semCapacity demo_lines fresh_world) all_done
  ∧ main all_done = DRet
  ∧ sem_len all_done = 0.
Proof.
  assert (Hm : main all_done = DRet) by (vm_compute; reflexivity).
  split; [exact all_done_reachable|]. split; [exact Hm|].
  exact (proj1 (proj2 (tokens_released_before_done (CO := demo [] [1]) _ _ _ _
                         all_done_reachable) Hm)).
Defined.

(** No panic of the WaitGroup on the way to the return. *)
Lemma waitgroup_never_negative_witness :
  reachable (CO := demo [] [1]) (init semCapacity demo_lines fresh_world) all_done
  ∧ exited all_done ≠ Some PanicNegativeCounter.
Proof.
  split; [exact all_done_reachable|].
  exact (proj1 (waitgroup_never_negative (CO := demo [] [1]) _ _ _ _ all_done_reachable)).
Defined.

(** The second goroutine of [two_in_flight] can take its step. *)
Lemma goroutine_never_blocks_witness :
  reachable (CO := demo [] []) (dispatch demo_lines fresh_world) two_in_flight
  ∧ exited two_in_flight = None
  ∧ ∃ s', step (CO := demo [] []) two_in_flight (Task 1) = Some s'.
Proof.
  split; [exact two_in_flight_reachable|]. split; [vm_compute; reflexivity|].
  destruct (goroutine_never_blocks (CO := demo [] []) _ _ _ two_in_flight 1
              {| t_record := ["bob"; "25"]; t_pc := TLog |} two_in_flight_reachable)
    as (s' & Hs & _).
  - vm_compute. reflexivity.
  - vm_compute. reflexivity.
  - done.
  - by exists s'.
Defined.

Lemma at_send_reachable :
  reachable (CO := demo [] []) (dispatch demo_lines fresh_world) at_send.
Proof. exists [Main; Main]. vm_compute. reflexivity. Defined.

(** Three lines: the first send does not wait. *)
Lemma send_blocks_only_when_full_witness :
  reachable (CO := demo [] []) (dispatch demo_lines fresh_world) at_send
  ∧ main at_send = DSend ["alice"; "30"]
  ∧ is_Some (step (CO := demo [] []) at_send Main).
Proof.
  split; [exact at_send_reachable|]. split; [vm_compute; reflexivity|].
  refine (proj2 (send_blocks_only_when_full (CO := demo [] []) _ _ at_send
                   ["alice"; "30"] at_send_reachable _ _) _).
  - vm_compute. reflexivity.
  - vm_compute. reflexivity.
  - vm_compute. lia.
Defined.

(** Three calls of each collaborator for three lines. *)
Lemma one_call_per_line_witness :
  reachable (CO := demo [] [1]) (init semCapacity demo_lines fresh_world) all_done
  ∧ main all_done = DRet
  ∧ uuid_calls all_done = 3 ∧ put_calls all_done = 3.
Proof.
  assert (Hm : main all_done = DRet) by (vm_compute; reflexivity).
  split; [exact all_done_reachable|]. split; [exact Hm|].
  exact (proj2 (proj2 (one_call_per_line (CO := demo [] [1]) _ _ _ _
                         all_done_reachable)) Hm).
Defined.

(** A step of the second goroutine at [two_in_flight]. *)
Lemma completion_is_monotone_witness :
  step (CO := demo [] []) two_in_flight (Task 1)
  = Some (after (CO := demo [] []) two_in_flight [Task 1])
  ∧ completed two_in_flight
    ≤ completed (after (CO := demo [] []) two_in_flight [Task 1]).
Proof.
  assert (Hs : step (CO := demo [] []) two_in_flight (Task 1)
               = Some (after (CO := demo [] []) two_in_flight [Task 1]))
    by (vm_compute; reflexivity).
  split; [exact Hs|].
  exact (proj1 (proj1 (completion_is_monotone (CO := demo [] []) _ _ _ Hs))).
Defined.

(** The body that is cut off: 500, and the three lines stay written. *)
Lemma writes_before_a_failure_are_kept_witness :
  Handler.handleRequest (CO := demo [] []) (RD := demo_readers)
      fresh_world (upload "truncated") [run_all]
    = Some (Handler.Responded Observe.read_error_response
              {| w_uuid_calls := 3; w_put_calls := 3 |})
  ∧ Observe.handled_lines (RD := demo_readers) (upload "truncated") = 3.
Proof.
  assert (Hrun : Handler.handleRequest (CO := demo [] []) (RD := demo_readers)
      fresh_world (upload "truncated") [run_all]
    = Some (Handler.Responded Observe.read_error_response
              {| w_uuid_calls := 3; w_put_calls := 3 |}))
    by (vm_compute; reflexivity).
  split; [exact Hrun|].
  pose proof (writes_before_a_failure_are_kept (CO := demo [] []) (RD := demo_readers)
                _ _ _ _ _ Hrun) as [Hu _].
  simpl in Hu. by rewrite Hu.
Defined.

(** The outcome of the body that is cut off is the response 500. *)
Lemma handler_outcomes_witness :
  Handler.handleRequest (CO := demo [] []) (RD := demo_readers)
      fresh_world (upload "truncated") [run_all]
    = Some (Handler.Responded Observe.read_error_response
              {| w_uuid_calls := 3; w_put_calls := 3 |})
  ∧ Handler.HTTPMethod (upload "truncated") = "POST".
Proof.
  assert (Hrun : Handler.handleRequest (CO := demo [] []) (RD := demo_readers)
      fresh_world (upload "truncated") [run_all]
    = Some (Handler.Responded Observe.read_error_response
              {| w_uuid_calls := 3; w_put_calls := 3 |}))
    by (vm_compute; reflexivity).
  split; [exact Hrun|].
  pose proof (handler_outcomes (CO := demo [] []) (RD := demo_readers) _ _ _ _ Hrun)
    as [[Hne _]|[Hpost _]]; [|exact Hpost].
  exfalso. by apply Hne.
Defined.

(** A read error in front of a part [file]: the part is never run. *)
Lemma nothing_after_a_failed_part_witness :
  Handler.parts_loop (CO := demo [] []) (RD := demo_readers) fresh_world
    ([] ++ inr "unexpected EOF" :: [inl file_part]) [run_all]
  = Handler.parts_loop (CO := demo [] []) (RD := demo_readers) fresh_world
      ([] ++ [inr "unexpected EOF"]) [run_all].
Proof.
  exact (nothing_after_a_failed_part (CO := demo [] []) (RD := demo_readers)
           fresh_world [] (inr "unexpected EOF") [inl file_part] [run_all] I).
Defined.

(** The key in small letters is not found: the body is read with the
    empty boundary and the handler answers 500. *)
Lemma missing_content_type_gives_empty_boundary_witness :
  Handler.Headers small_key_upload !! "Content-Type" = None
  ∧ Handler.handleRequest (CO := demo [] []) (RD := demo_readers)
      fresh_world small_key_upload [run_all]
    = Some (Handler.Responded Observe.read_error_response fresh_world).
Proof.
  assert (Hnone : Handler.Headers small_key_upload !! "Content-Type" = None)
    by (vm_compute; reflexivity).
  split; [exact Hnone|].
  rewrite (proj2 (missing_content_type_gives_empty_boundary (CO := demo [] [])
                    (RD := demo_readers) fresh_world small_key_upload [run_all]
                    eq_refl Hnone eq_refl)).
  vm_compute. reflexivity.
Defined.

(** The boundary [xyz] of a form upload comes back. *)
Lemma extractBoundary_round_trip_witness :
  Boundary.extractBoundary GoStrings.TrimSpace_ascii
    ("multipart/form-data" +:+ "; boundary=" +:+ "xyz") = Some "xyz".
Proof.
  apply (extractBoundary_round_trip GoStrings.TrimSpace_ascii "multipart/form-data" "xyz").
  - reflexivity.
  - reflexivity.
  - intros [rest Hrest]. vm_compute in Hrest. discriminate.
  - reflexivity.
Defined.

Lemma trim_left_no_byte c s :
  Observe.contains_byte c s = false →
  Observe.contains_byte c (GoStrings.trim_left s) = false.
Proof.
  induction s as [|d s IH]; simpl; [done|]. intros Hc.
  destruct (GoStrings.asciiSpace d); [|done].
  apply orb_false_iff in Hc as [_ Hs]. by apply IH.
Qed.

Lemma trim_right_no_byte c s :
  Observe.contains_byte c s = false →
  Observe.contains_byte c (GoStrings.trim_right s) = false.
Proof.
  induction s as [|d s IH]; simpl; [done|]. intros Hc.
  apply orb_false_iff in Hc as [Hd Hs]. specialize (IH Hs).
  destruct (GoStrings.trim_right s) as [|d' s'].
  - destruct (GoStrings.asciiSpace d); simpl; [done | by rewrite Hd].
  - simpl in *. by rewrite Hd.
Qed.

(** Trimming the white space of ASCII adds no byte. *)
Lemma TrimSpace_ascii_no_byte c s :
  Observe.contains_byte c s = false →
  Observe.contains_byte c (GoStrings.TrimSpace_ascii s) = false.
Proof. intros Hc. by apply trim_right_no_byte, trim_left_no_byte. Qed.

(** A quoted boundary with a semicolon comes out cut at the semicolon. *)
Lemma extractBoundary_has_no_semicolon_witness :
  Boundary.extractBoundary GoStrings.TrimSpace_ascii
    "multipart/form-data; boundary='a;b'" = Some "'a"
  ∧ Observe.contains_byte ";" "'a" = false.
Proof.
  assert (Hres : Boundary.extractBoundary GoStrings.TrimSpace_ascii
                   "multipart/form-data; boundary='a;b'" = Some "'a")
    by reflexivity.
  split; [exact Hres|].
  exact (extractBoundary_has_no_semicolon GoStrings.TrimSpace_ascii _ _
           (TrimSpace_ascii_no_byte ";") Hres).
Defined.

